(** * LLAMA (Loss and LAtency MAtrix): a shallow embedding of the collector core

    The development follows the Go sources of the repository:
    - [resulthandler.go]: [Process], [RTT];
    - [summarizer.go]: [CalcCounts], [CalcLoss], [CalcRTT], [NsToMs],
      [summarizeSet], [addResult], [store], [summarize];
    - [tags.go] / API: [MergeUpdateTagSet];
    - [udp.go]: [PackUdpData], [UnpackUdpData];
    - [util.go]: [NewID], [IDToBytes];
    - [portgroup.go]: [Add], [Del], [mux], [run];
    - [port.go]: [send], [recv], [done] over the probe cache;
    - the TestRunner: [Add], [Del], [Set], [cycleTargets];
    - [config.go]: [AddrString], [TagSet], [IntoTagSet], [ListTargets],
      [ListResolvedTargets], [ToDefaultCollectorConfig];
    - [influx.go]: [FromPD], [FromSummary], [UpdateTags], [NewDataPoint],
      [NewFromSummaries];
    - [reflector.go]: [Reflect], [Receive], [Send].

    Conventions.  A [uint64] is a [Z] with its wrap-around written out; a Go
    [int] is a [Z]; a [float64] is an IEEE-754 binary64 value of the Standard
    Library's [spec_float] (precision 53, emax 1024, round to nearest even);
    a byte is a [Byte.byte]; a Go [string] and a [[]byte] are lists of bytes;
    Go maps are [gmap]s and, where the code ranges over a map, the iteration
    order is an arbitrary permutation of the map's entries. *)

From Stdlib Require Import ZArith List Bool Lia.
From Stdlib Require Import Strings.Byte Strings.String.
From Stdlib Require Import Floats.SpecFloat.
From stdpp Require Import base tactics option list gmap strings fin_maps.
From stdpp Require Import pretty.

Local Open Scope Z_scope.

(* ===================================================================== *)
(** * Machine integers *)
(* ===================================================================== *)

(** [uint64]: the values [0 .. 2^64-1]. *)
Definition u64 (z : Z) : Prop := 0 <= z < 2 ^ 64.

(** Subtraction on [uint64] wraps around. *)
Definition sub64 (a b : Z) : Z := (a - b) mod 2 ^ 64.

(* ===================================================================== *)
(** * float64 *)
(* ===================================================================== *)

Module F64.

Definition prec : Z := 53.
Definition emax : Z := 1024.

(** Conversion [float64(n)] of an integer: correctly rounded. *)
Definition of_Z (z : Z) : spec_float := binary_normalize prec emax z 0 false.

Definition add : spec_float -> spec_float -> spec_float := SFadd prec emax.
Definition mul : spec_float -> spec_float -> spec_float := SFmul prec emax.
Definition div : spec_float -> spec_float -> spec_float := SFdiv prec emax.

(** Go's [<] and [>] on floats; both are false when a side is NaN. *)
Definition ltb (x y : spec_float) : bool := SFltb x y.
Definition gtb (x y : spec_float) : bool := SFltb y x.
Definition leb (x y : spec_float) : bool := SFleb x y.
(** Go's [==] on floats. *)
Definition eqb (x y : spec_float) : bool := SFeqb x y.

(** The zero value of a [float64]. *)
Definition zero : spec_float := S754_zero false.

(** [math.MaxFloat64] = (2^53 - 1) * 2^971. *)
Definition MaxFloat64 : spec_float := S754_finite false 9007199254740991 971.

(** Non-negative and not NaN: [+0], a positive finite value, or [+Inf]. *)
Definition nonneg (x : spec_float) : Prop :=
  match x with
  | S754_zero false | S754_finite false _ _ | S754_infinity false => True
  | _ => False
  end.

End F64.

(* ===================================================================== *)
(** * port.go: the data carried through the pipeline *)
(* ===================================================================== *)

(** [net.IP] is a byte slice. *)
Record PathDist := {
  SrcIP : list byte;
  SrcPort : Z;
  DstIP : list byte;
  DstPort : Z;
  Proto : string;
}.

(** [Probe.Pd] is a [*PathDist], possibly nil. *)
Module Probe.
Record t := mk {
  Pd : option PathDist;
  CSent : Z;
  CRcvd : Z;
  Tos : byte;
}.
Definition wf (p : t) : Prop := u64 (CSent p) /\ u64 (CRcvd p).
End Probe.

(* ===================================================================== *)
(** * resulthandler.go *)
(* ===================================================================== *)

Module Result.
Record t := mk {
  Pd : option PathDist;
  RTT : Z;
  Done : Z;
  Lost : bool;
}.
Definition set_Lost (b : bool) (r : t) : t := mk (Pd r) (RTT r) (Done r) b.
Definition set_RTT (v : Z) (r : t) : t := mk (Pd r) v (Done r) (Lost r).
End Result.

(** A Go [error] value: its message; [None] is [nil]. *)
Definition error : Type := option string.

Definition ErrOutOfOrder : string :=
  "Probe send/recv times appear to be out of order".

(** [RTT(probe, result)]: updates [result] in place and returns an error. *)
Definition RTT (probe : Probe.t) (result : Result.t) : Result.t * error :=
  if Probe.CRcvd probe =? 0 then
    (Result.set_Lost true result, None)
  else if Probe.CSent probe >? Probe.CRcvd probe then
    (Result.set_Lost true result, Some ErrOutOfOrder)
  else
    let rtt := sub64 (Probe.CRcvd probe) (Probe.CSent probe) in
    (Result.set_RTT rtt result, None).

(** [HandleMinorError]: a non-nil error is written to the log, nothing else
    happens.  The log is the list of lines written. *)
Definition HandleMinorError (err : error) (log : list string) : list string :=
  match err with
  | Some msg => log ++ [msg]
  | None => log
  end.

(** [Process(probe)]: the Result and the log lines it writes. *)
Definition Process (probe : Probe.t) : Result.t * list string :=
  let result := Result.mk (Probe.Pd probe) 0 (Probe.CRcvd probe) false in
  let '(result, err) := RTT probe result in
  (result, HandleMinorError err []).

(* ===================================================================== *)
(** * summarizer.go *)
(* ===================================================================== *)

Module Summary.
(** [TS] is never assigned by the code and is left out. *)
Record t := mk {
  Pd : option PathDist;
  RTTAvg : spec_float;
  RTTMin : spec_float;
  RTTMax : spec_float;
  Sent : Z;
  Lost : Z;
  Loss : spec_float;
}.
(** [&Summary{Pd: pd}]: every other field has its zero value. *)
Definition new (pd : option PathDist) : t :=
  mk pd F64.zero F64.zero F64.zero 0 0 F64.zero.
Definition set_RTTAvg v s := mk (Pd s) v (RTTMin s) (RTTMax s) (Sent s) (Lost s) (Loss s).
Definition set_RTTMin v s := mk (Pd s) (RTTAvg s) v (RTTMax s) (Sent s) (Lost s) (Loss s).
Definition set_RTTMax v s := mk (Pd s) (RTTAvg s) (RTTMin s) v (Sent s) (Lost s) (Loss s).
Definition set_Sent v s := mk (Pd s) (RTTAvg s) (RTTMin s) (RTTMax s) v (Lost s) (Loss s).
Definition set_Lost v s := mk (Pd s) (RTTAvg s) (RTTMin s) (RTTMax s) (Sent s) v (Loss s).
Definition set_Loss v s := mk (Pd s) (RTTAvg s) (RTTMin s) (RTTMax s) (Sent s) (Lost s) v.
End Summary.

(** [NsToMs(ns)] = [ns / 1000000.0]. *)
Definition NsToMs (ns : spec_float) : spec_float := F64.div ns (F64.of_Z 1000000).

(** The first loop of [CalcRTT]: the converted RTTs of the Results that are
    not lost, in order. *)
Fixpoint rtt_values (results : list Result.t) : list spec_float :=
  match results with
  | [] => []
  | r :: rest =>
      if Result.Lost r then rtt_values rest
      else NsToMs (F64.of_Z (Result.RTT r)) :: rtt_values rest
  end.

(** [total := 0.0; for v := range values { total += v }]. *)
Definition sum_values (values : list spec_float) : spec_float :=
  fold_left (fun total v => F64.add total v) values F64.zero.

(** [min := math.MaxFloat64; for ... { if v < min { min = v } }]. *)
Definition min_values (values : list spec_float) : spec_float :=
  fold_left (fun min v => if F64.ltb v min then v else min) values F64.MaxFloat64.

(** [max := 0.0; for ... { if v > max { max = v } }]. *)
Definition max_values (values : list spec_float) : spec_float :=
  fold_left (fun max v => if F64.gtb v max then v else max) values F64.zero.

Definition CalcRTT (results : list Result.t) (summary : Summary.t) : Summary.t :=
  match results with
  | [] => summary
  | _ =>
      let values := rtt_values results in
      match values with
      | [] => summary
      | _ =>
          let total := sum_values values in
          let avg := F64.div total (F64.of_Z (Z.of_nat (length values))) in
          let summary := Summary.set_RTTAvg avg summary in
          let summary := Summary.set_RTTMin (min_values values) summary in
          Summary.set_RTTMax (max_values values) summary
      end
  end.

(** [lost := 0; for ... { if r.Lost { lost++ } }]. *)
Definition count_lost (results : list Result.t) : Z :=
  fold_left (fun lost r => if Result.Lost r then lost + 1 else lost) results 0.

Definition CalcCounts (results : list Result.t) (summary : Summary.t) : Summary.t :=
  let summary := Summary.set_Sent (Z.of_nat (length results)) summary in
  Summary.set_Lost (count_lost results) summary.

(** [CalcLoss]: the guarded assignment of [0] is followed, unconditionally,
    by the assignment of the quotient. *)
Definition CalcLoss (summary : Summary.t) : Summary.t :=
  let summary :=
    if Summary.Sent summary =? 0 then Summary.set_Loss F64.zero summary
    else summary in
  Summary.set_Loss
    (F64.mul (F64.div (F64.of_Z (Summary.Lost summary))
                      (F64.of_Z (Summary.Sent summary)))
             (F64.of_Z 100))
    summary.

(** [summarizeSet]: [results[0]] panics on an empty slice ([None]). *)
Definition summarizeSet (results : list Result.t) : option Summary.t :=
  match results with
  | [] => None
  | r0 :: _ =>
      let summary := Summary.new (Result.Pd r0) in
      let summary := CalcCounts results summary in
      let summary := CalcLoss summary in
      Some (CalcRTT results summary)
  end.

(* ===================================================================== *)
(** * api.go: the tag set held by the API *)
(* ===================================================================== *)

(** [type Tags map[string]string] and [type TagSet map[string]Tags]. *)
Abbreviation Tags := (gmap string string).
Abbreviation TagSet := (gmap string (gmap string string)).

(** The part of [API] the merge touches; the mutex only serialises callers. *)
Record API := { ts : TagSet }.

(** [for k, v := range t] visits every entry of [t] once, in an order the
    language leaves open: any list that is a permutation of the entries. *)
Definition range_order {K : Type} `{Countable K} {V : Type}
    (t : gmap K V) (order : list (K * V)) : Prop :=
  order ≡ₚ map_to_list t.

(** [MergeUpdateTagSet(t)]: [api.ts[k] = v] for the entries of [t], visited
    in [order]. *)
Definition MergeUpdateTagSet (api : API) (order : list (string * Tags)) : API :=
  {| ts := foldl (fun acc kv => <[kv.1 := kv.2]> acc) (ts api) order |}.

(* ===================================================================== *)
(** * util.go *)
(* ===================================================================== *)

(** [NewID]: [fullUUID] is the value [uuid.NewV4()] returned, a [[16]byte];
    the result is the string made of [fullUUID[len(fullUUID)-10:]].  A Go
    string is a sequence of bytes, as is a [string] here. *)
Definition NewID (fullUUID : list byte) : string :=
  string_of_list_byte (drop (length fullUUID - 10)%nat fullUUID).

(** [IDToBytes]: [copy] fills a zeroed [[10]byte] with as many bytes of [id]
    as fit. *)
Definition IDToBytes (id : string) : list byte :=
  take 10%nat (list_byte_of_string id)
  ++ replicate (10 - String.length id)%nat "000"%byte.

(* ===================================================================== *)
(** * udp.go: the legacy fixed-width payload *)
(* ===================================================================== *)

(** Go's conversion [byte(v)] and back. *)
Definition byte_of_Z (z : Z) : byte :=
  default "000"%byte (Byte.of_N (Z.to_N (z mod 256))).
Definition Z_of_byte (b : byte) : Z := Z.of_N (Byte.to_N b).

(** [binary.LittleEndian.PutUint64] writes [byte(v)], [byte(v >> 8)], ...;
    [PutUint n] writes [n] bytes. *)
Fixpoint PutUint (n : nat) (v : Z) : list byte :=
  match n with
  | O => []
  | S n' => byte_of_Z v :: PutUint n' (Z.shiftr v 8)
  end.

(** [binary.LittleEndian.Uint64] is [b[0] | b[1]<<8 | ...]. *)
Fixpoint Uint (bs : list byte) : Z :=
  match bs with
  | [] => 0
  | b :: rest => Z.lor (Z_of_byte b) (Z.shiftl (Uint rest) 8)
  end.

Module UdpData.
Record t := mk {
  Signature : list byte;
  Tos : byte;
  Sent : Z;
  Rcvd : Z;
  RTT : Z;
  Lost : byte;
}.
(** What the Go types guarantee: a [[10]byte] and three [uint64]. *)
Definition wf (d : t) : Prop :=
  length (Signature d) = 10%nat /\ u64 (Sent d) /\ u64 (Rcvd d) /\ u64 (RTT d).
(** [UdpData{}]. *)
Definition zero : t := mk (replicate 10%nat "000"%byte) "000"%byte 0 0 0 "000"%byte.
(** [binary.Size]: 10 + 1 + 8 + 8 + 8 + 1. *)
Definition size : nat := 36%nat.
End UdpData.

(** [binary.Write(&buf, binary.LittleEndian, data)] on a [*UdpData]: the
    fields in declaration order, fixed width, no padding; it cannot fail on
    a fixed-size struct. *)
Definition binary_Write (d : UdpData.t) : list byte * error :=
  (UdpData.Signature d ++ [UdpData.Tos d] ++ PutUint 8 (UdpData.Sent d)
     ++ PutUint 8 (UdpData.Rcvd d) ++ PutUint 8 (UdpData.RTT d)
     ++ [UdpData.Lost d], None).

(** [binary.Read(buf, binary.LittleEndian, &unpackedData)]: reads
    [binary.Size] bytes, failing (and leaving the struct untouched) when the
    buffer holds fewer, then decodes the fields in order. *)
Definition binary_Read (data : list byte) (into : UdpData.t) : UdpData.t * error :=
  if (length data <? UdpData.size)%nat then
    (into, Some (if (length data =? 0)%nat then "EOF" else "unexpected EOF")%string)
  else
    (UdpData.mk (take 10%nat data)
                (nth 10%nat data "000"%byte)
                (Uint (take 8%nat (drop 11%nat data)))
                (Uint (take 8%nat (drop 19%nat data)))
                (Uint (take 8%nat (drop 27%nat data)))
                (nth 35%nat data "000"%byte), None).

(** [HandleError] is [HandleFatalError]: a non-nil error ends the process
    ([None]); otherwise the caller goes on. *)
Definition HandleError {A : Type} (err : error) (k : option A) : option A :=
  match err with
  | Some _ => None
  | None => k
  end.

(** [PackUdpData]: [None] stands for the process exit of [HandleError]. *)
Definition PackUdpData (data : UdpData.t) : option (list byte * error) :=
  let '(packedData, err) := binary_Write data in
  HandleError err (Some (packedData, None)).

Definition ErrInvalidData : string := "Invalid data received".

Definition UnpackUdpData (data : list byte) : UdpData.t * error :=
  let '(unpackedData, err) := binary_Read data UdpData.zero in
  match err with
  | Some _ => (unpackedData, Some ErrInvalidData)
  | None => (unpackedData, None)
  end.

(* ===================================================================== *)
(** * portgroup.go *)
(* ===================================================================== *)

(** [net.UDPAddr]. *)
Module UDPAddr.
Record t := mk {
  IP : list byte;
  Port : Z;
  Zone : string;
}.
End UDPAddr.

(** A [*Port] and a [chan *net.UDPAddr] are references; two are the same
    Port, or the same channel, exactly when the references are equal. *)
Abbreviation PortRef := positive.
Abbreviation ChanRef := positive.

(** The channels: for each one, the values sent on it so far, oldest first.
    A send [c <- addr] blocks until the channel takes the value and then
    returns; it neither drops nor repeats the value, so its effect on the
    history is to append [addr]. *)
Definition chan_send (c : ChanRef) (addr : UDPAddr.t)
    (chans : gmap ChanRef (list UDPAddr.t)) : gmap ChanRef (list UDPAddr.t) :=
  <[c := chans !!! c ++ [addr]]> chans.

(** The [stop], [cbc] and [tosend] channels are fixed at construction; [run]
    below receives what arrives on [stop] and [tosend] as its events. *)
Module PortGroup.
Record t := mk {
  ports : gmap PortRef ChanRef;
}.
End PortGroup.

Definition NewPortGroup : PortGroup.t := PortGroup.mk ∅.

(** [pg.ports[p] = c]. *)
Definition Add (p : PortRef) (c : ChanRef) (pg : PortGroup.t) : PortGroup.t :=
  PortGroup.mk (<[p := c]> (PortGroup.ports pg)).

(** [delete(pg.ports, p)]. *)
Definition Del (p : PortRef) (pg : PortGroup.t) : PortGroup.t :=
  PortGroup.mk (delete p (PortGroup.ports pg)).

(** [mux(addr)]: [for _, c := range pg.ports { c <- addr }], the entries
    being visited in [order]. *)
Definition mux (order : list (PortRef * ChanRef)) (addr : UDPAddr.t)
    (chans : gmap ChanRef (list UDPAddr.t)) : gmap ChanRef (list UDPAddr.t) :=
  foldl (fun chans pc => chan_send pc.2 addr chans) chans order.

(** What the [select] of [run] takes next: an address from [tosend], muxed
    in some iteration order, or the closed [stop]. *)
Inductive mux_event :=
| Arrive (addr : UDPAddr.t) (order : list (PortRef * ChanRef))
| Stopped.

(** [run]: the loop ends on [stop], dropping the ports ([pg.ports = nil]). *)
Fixpoint run_mux (events : list mux_event) (pg : PortGroup.t)
    (chans : gmap ChanRef (list UDPAddr.t))
  : PortGroup.t * gmap ChanRef (list UDPAddr.t) :=
  match events with
  | [] => (pg, chans)
  | Stopped :: _ => (PortGroup.mk ∅, chans)
  | Arrive addr order :: rest => run_mux rest pg (mux order addr chans)
  end.

(** The number of Ports of the group whose input channel is [c]. *)
Definition ports_on (pg : PortGroup.t) (c : ChanRef) : nat :=
  length (filter (fun pc => pc.2 = c) (map_to_list (PortGroup.ports pg))).

(* ===================================================================== *)
(** * The probe cache *)
(* ===================================================================== *)

(** [time.Duration] and clock readings are integers, in nanoseconds. *)
Definition ExpireNow : Z := 1.

Module Cache.

(** Modelled from the spec: the probe cache is the package
    [github.com/patrickmn/go-cache], which is not among the sources.  The
    spec (4.1) describes a keyed store [signature -> Probe] with a per-entry
    TTL, [set], a non-consuming [get], [replace] (new value, new TTL), one
    eviction callback invoked for every key removed, and a cleaner that
    sweeps the expired entries at its own cadence.  An item holds the value
    and the clock reading after which it is expired ([0]: never). *)
Record Item := mkItem {
  Object : Probe.t;
  Expiration : Z;
}.

(** The function installed with [OnEvicted]: [port.done], or the empty
    function the receive loop installs on stop. *)
Inductive Callback := CbDone | CbNoop.

Record t := mk {
  items : gmap string Item;
  defaultExpiration : Z;
  onEvicted : option Callback;
}.

Definition DefaultExpiration : Z := 0.

(** Modelled from the spec: [gocache.New(cTimeout, cCleanRate)]; a zero
    timeout means that items never expire.  No callback is installed yet. *)
Definition New (cTimeout cCleanRate : Z) : t :=
  mk ∅ (if cTimeout =? 0 then -1 else cTimeout) None.

(** An item is expired once the clock has passed its expiration. *)
Definition Expired (now : Z) (it : Item) : bool :=
  (0 <? Expiration it) && (Expiration it <? now).

(** Modelled from the spec: [set(key, probe)] with a TTL [d]; the default
    TTL is the cache's, and only a positive TTL expires. *)
Definition set (k : string) (x : Probe.t) (d : Z) (now : Z) (c : t) : t :=
  let d := if d =? DefaultExpiration then defaultExpiration c else d in
  let e := if 0 <? d then now + d else 0 in
  mk (<[k := mkItem x e]> (items c)) (defaultExpiration c) (onEvicted c).

Definition SetDefault (k : string) (x : Probe.t) (now : Z) (c : t) : t :=
  set k x DefaultExpiration now c.

(** Modelled from the spec: [get(key)], a lookup that does not consume; an
    expired entry that the cleaner has not swept yet is not found. *)
Definition Get (k : string) (now : Z) (c : t) : option Probe.t :=
  match items c !! k with
  | Some it => if Expired now it then None else Some (Object it)
  | None => None
  end.

(** Modelled from the spec: [replace(key, probe, d)] updates value and TTL
    of an entry that [get] would find, and fails otherwise. *)
Definition Replace (k : string) (x : Probe.t) (d : Z) (now : Z) (c : t) : t * error :=
  match Get k now c with
  | Some _ => (set k x d now c, None)
  | None => (c, Some "Item doesn't exist"%string)
  end.

(** Modelled from the spec: [on_evicted(fn)] installs the single eviction
    callback. *)
Definition OnEvicted (f : Callback) (c : t) : t :=
  mk (items c) (defaultExpiration c) (Some f).

(** Modelled from the spec: one sweep of the cleaner.  Every expired item is
    removed; the removed keys and values are returned for the callback when
    one is installed (in the order of [map_to_list]; nothing below depends
    on that order). *)
Definition DeleteExpired (now : Z) (c : t) : t * list (string * Probe.t) :=
  let evictedItems :=
    omap (fun kv : string * Item =>
            if Expired now kv.2 then Some (kv.1, Object kv.2) else None)
         (map_to_list (items c)) in
  (mk (filter (fun kv : string * Item => Expired now kv.2 = false) (items c))
      (defaultExpiration c) (onEvicted c),
   match onEvicted c with
   | Some _ => evictedItems
   | None => []
   end).

End Cache.

(* ===================================================================== *)
(** * port.go: the Port *)
(* ===================================================================== *)

Module Port.
(** [cbc] is the history of the callback channel: the probes sent on it so
    far.  [local] is the local address of [conn] (what [srcPD] reads and
    saves in [basePD]), [tos] the socket's IP_TOS.  [sending] and
    [receiving] tell whether the two loops are running. *)
Record t := mk {
  cache : Cache.t;
  cbc : list Probe.t;
  local : PathDist;
  tos : byte;
  sending : bool;
  receiving : bool;
}.
Definition set_cache (c : Cache.t) (p : t) : t :=
  mk c (cbc p) (local p) (tos p) (sending p) (receiving p).
Definition set_cbc (l : list Probe.t) (p : t) : t :=
  mk (cache p) l (local p) (tos p) (sending p) (receiving p).
Definition set_sending (b : bool) (p : t) : t :=
  mk (cache p) (cbc p) (local p) (tos p) b (receiving p).
Definition set_receiving (b : bool) (p : t) : t :=
  mk (cache p) (cbc p) (local p) (tos p) (sending p) b.
End Port.

(** [p.pd(dst)]. *)
Definition pd (p : Port.t) (dst : UDPAddr.t) : PathDist :=
  {| SrcIP := SrcIP (Port.local p);
     SrcPort := SrcPort (Port.local p);
     DstIP := UDPAddr.IP dst;
     DstPort := UDPAddr.Port dst;
     Proto := Proto (Port.local p) |}.

(** [p.done(key, value)]: the evicted probe goes to [cbc]. *)
Definition done (key : string) (value : Probe.t) (p : Port.t) : Port.t :=
  Port.set_cbc (Port.cbc p ++ [value]) p.

(** [NewPort]: a fresh cache with [port.done] as its eviction callback; the
    loops are started by [Send] and [Recv]. *)
Definition NewPort (local : PathDist) (tos : byte) (cTimeout cCleanRate : Z) : Port.t :=
  Port.mk (Cache.OnEvicted Cache.CbDone (Cache.New cTimeout cCleanRate))
          [] local tos false false.

Definition Send (p : Port.t) : Port.t := Port.set_sending true p.
Definition Recv (p : Port.t) : Port.t := Port.set_receiving true p.

(** One turn of the [send] loop on an address from [tosend]: [key] is what
    [NewID()] returned and [now] what [NowUint64()] returned.  The probe is
    cached under its key; the datagram then goes to the socket, which is
    outside this model. *)
Definition send (addr : UDPAddr.t) (key : string) (now : Z) (p : Port.t) : Port.t :=
  let probe := Probe.mk (Some (pd p addr)) now 0 (Port.tos p) in
  Port.set_cache (Cache.SetDefault key probe now (Port.cache p)) p.

(** One turn of the [recv] loop on a datagram carrying [sig], read at clock
    [now]: a cache miss drops it; on a hit the cached probe gets
    [CRcvd = now] and is replaced with TTL [ExpireNow].  (The cached value is
    a pointer, so the assignment already changes the cached probe; with one
    clock reading per turn the [Replace] that follows a successful [Get]
    succeeds.) *)
Definition recv (sig : string) (now : Z) (p : Port.t) : Port.t :=
  match Cache.Get sig now (Port.cache p) with
  | None => p
  | Some probe =>
      let probe := Probe.mk (Probe.Pd probe) (Probe.CSent probe) now (Probe.Tos probe) in
      let '(c, _) := Cache.Replace sig probe ExpireNow now (Port.cache p) in
      Port.set_cache c p
  end.

(** The [stop] branch of [recv]: the callback becomes the empty function
    and the loop returns. *)
Definition recv_stop (p : Port.t) : Port.t :=
  Port.set_receiving false
    (Port.set_cache (Cache.OnEvicted Cache.CbNoop (Port.cache p)) p).

(** The [stop] branch of [send]. *)
Definition send_stop (p : Port.t) : Port.t := Port.set_sending false p.

(** One sweep of the cache's cleaner at clock [now]: the evicted items are
    handed to the installed callback, and the calls of [p.done] are
    returned. *)
Definition sweep (now : Z) (p : Port.t) : Port.t * list (string * Probe.t) :=
  let '(c, evicted) := Cache.DeleteExpired now (Port.cache p) in
  let p := Port.set_cache c p in
  match Cache.onEvicted c with
  | Some Cache.CbDone => (foldl (fun p kv => done kv.1 kv.2 p) p evicted, evicted)
  | _ => (p, [])
  end.

(** What happens to a Port, one step at a time: its two loops and the
    cache's cleaner interleave. *)
Inductive port_event :=
| EvSend (addr : UDPAddr.t) (key : string) (now : Z)
| EvSendStop
| EvRecv (sig : string) (now : Z)
| EvRecvStop
| EvSweep (now : Z).

(** A step gives the next state and the calls of [p.done] it made. *)
Definition step (ev : port_event) (p : Port.t) : Port.t * list (string * Probe.t) :=
  match ev with
  | EvSend addr key now => (if Port.sending p then send addr key now p else p, [])
  | EvSendStop => (if Port.sending p then send_stop p else p, [])
  | EvRecv sig now => (if Port.receiving p then recv sig now p else p, [])
  | EvRecvStop => (if Port.receiving p then recv_stop p else p, [])
  | EvSweep now => sweep now p
  end.

Fixpoint run_port (evs : list port_event) (p : Port.t)
  : Port.t * list (string * Probe.t) :=
  match evs with
  | [] => (p, [])
  | ev :: rest =>
      let '(p1, calls1) := step ev p in
      let '(p2, calls2) := run_port rest p1 in
      (p2, calls1 ++ calls2)
  end.







(** The Results a ResultHandler makes of the probes handed to [p.done]. *)
Definition results_of (calls : list (string * Probe.t)) : list Result.t :=
  (fun kp => (Process kp.2).1) <$> calls.

(* ===================================================================== *)
(** * summarizer.go: the Summarizer *)
(* ===================================================================== *)

(** The buckets of Results waiting for the next summarization and the
    published cache of Summaries; channels, mutexes and the ticker are left
    to the callers of the functions below. *)
Module Summarizer.
Record t := mk {
  results : gmap string (list Result.t);
  Cache : list Summary.t;
}.
End Summarizer.

Definition NewSummarizer : Summarizer.t := Summarizer.mk ∅ [].

(** [fmt.Sprintf("src_%v->dst_%v", pd.SrcIP, pd.DstIP)]; [IPString] is
    [net.IP.String] of the standard library. *)
Definition result_key (IPString : list byte -> string) (pd : PathDist) : string :=
  ("src_" +:+ IPString (SrcIP pd) +:+ "->dst_" +:+ IPString (DstIP pd))%string.

(** [addResult]: [s.results[key] = append(s.results[key], result)]; a
    Result without a [Pd] makes the key computation panic ([None]). *)
Definition addResult (IPString : list byte -> string) (result : Result.t)
    (s : Summarizer.t) : option Summarizer.t :=
  match Result.Pd result with
  | None => None
  | Some pd =>
      let key := result_key IPString pd in
      Some (Summarizer.mk
              (<[key := Summarizer.results s !!! key ++ [result]]>
                 (Summarizer.results s))
              (Summarizer.Cache s))
  end.

(** What the [store] loops do with the Results that arrive, one after the
    other. *)
Fixpoint store (IPString : list byte -> string) (arrived : list Result.t)
    (s : Summarizer.t) : option Summarizer.t :=
  match arrived with
  | [] => Some s
  | result :: rest =>
      match addResult IPString result s with
      | Some s' => store IPString rest s'
      | None => None
      end
  end.

(** [summarize]: the buckets are taken out and replaced by an empty map,
    each is summarized (in the order of the range loop), and the Summaries
    become the cache.  [None] is the panic of [summarizeSet]. *)
Definition summarize (order : list (string * list Result.t)) (s : Summarizer.t)
  : option Summarizer.t :=
  match mapM (fun kv => summarizeSet kv.2) order with
  | Some newCache => Some (Summarizer.mk ∅ newCache)
  | None => None
  end.

(** The Results accounted for by a cache: the sum of [Sent]. *)
Definition total_Sent (cache : list Summary.t) : Z :=
  foldr (fun s acc => Summary.Sent s + acc) 0 cache.

(* ===================================================================== *)
(** * The TestRunner *)
(* ===================================================================== *)

(** The targets of a TestRunner are [*net.UDPAddr] pointers, compared as
    pointers; [A] is the type of the non-nil ones and [None] is [nil].
    [targets] is the slice [tr.targets]. *)
Module TestRunner.
Record t (A : Type) := mk {
  targets : list (option A);
}.
Arguments mk {A} _.
Arguments targets {A} _.
End TestRunner.

(** [Add(addrs...)]: [tr.targets = append(tr.targets, addrs...)]. *)
Definition TestRunner_Add {A : Type} (addrs : list (option A))
    (tr : TestRunner.t A) : TestRunner.t A :=
  TestRunner.mk (TestRunner.targets tr ++ addrs).

(** [Set(targets)]. *)
Definition TestRunner_Set {A : Type} (targets : list (option A))
    (tr : TestRunner.t A) : TestRunner.t A :=
  TestRunner.mk targets.

(** [cycleTargets]: the targets, in order, as they are sent on [tosend]. *)
Definition cycleTargets {A : Type} (tr : TestRunner.t A) : list (option A) :=
  TestRunner.targets tr.

(** The loop of [Del].  [for i, v := range tr.targets] fixes the indices to
    visit when it starts, and reads [v] from the backing array [arr], which
    the body changes; [len] is the current length of [tr.targets].  On a
    match the body runs
    [tr.targets[i] = tr.targets[len-1]; tr.targets[len-1] = nil;
     tr.targets = tr.targets[:len-1]],
    which panics ([None]) when [i] is not below [len]. *)
Fixpoint Del_loop {A : Type} `{EqDecision A} (indices : list nat)
    (addr : option A) (arr : list (option A)) (len : nat)
  : option (list (option A) * nat) :=
  match indices with
  | [] => Some (arr, len)
  | i :: rest =>
      if decide (arr !! i = Some addr) then
        if decide (i < len)%nat then
          let last := arr !!! (len - 1)%nat in
          let arr := <[i := last]> arr in
          let arr := <[(len - 1)%nat := None]> arr in
          Del_loop rest addr arr (len - 1)%nat
        else None
      else Del_loop rest addr arr len
  end.

(** [Del(addr)]. *)
Definition TestRunner_Del {A : Type} `{EqDecision A} (addr : option A)
    (tr : TestRunner.t A) : option (TestRunner.t A) :=
  let targets := TestRunner.targets tr in
  match Del_loop (seq 0 (length targets)) addr targets (length targets) with
  | Some (arr, len) => Some (TestRunner.mk (take len arr))
  | None => None
  end.

(* ===================================================================== *)
(** * config.go *)
(* ===================================================================== *)

(** [TargetConfig]. *)
Module TargetConfig.
Record t := mk {
  IP : string;
  Port : Z;
  Tags : gmap string string;
}.
End TargetConfig.

(** [type TargetSet []TargetConfig] and
    [type TargetsConfig map[string]TargetSet]. *)
Abbreviation TargetSet := (list TargetConfig.t).
Abbreviation TargetsConfig := (gmap string (list TargetConfig.t)).

(** [AddrString]: [fmt.Sprintf("%v:%v", tc.IP, tc.Port)]; [%v] prints an
    [int64] in decimal. *)
Definition AddrString (tc : TargetConfig.t) : string :=
  (TargetConfig.IP tc +:+ ":" +:+ pretty (TargetConfig.Port tc))%string.

(** [TargetSet.IntoTagSet(tagset)]: [tagset[target.IP] = target.Tags] for the
    targets in slice order. *)
Definition TargetSet_IntoTagSet (ts : TargetSet) (tagset : TagSet) : TagSet :=
  foldl (fun tagset target =>
           <[TargetConfig.IP target := TargetConfig.Tags target]> tagset)
        tagset ts.

(** [TargetSet.TagSet()]. *)
Definition TargetSet_TagSet (ts : TargetSet) : TagSet :=
  TargetSet_IntoTagSet ts ∅.

(** [ListTargets]. *)
Definition ListTargets (ts : TargetSet) : list string :=
  foldl (fun addrs target => addrs ++ [AddrString target]) [] ts.

(** [ListResolvedTargets]; [resolve] is [net.ResolveUDPAddr("udp", _)], which
    gives an address or an error.  The loop returns what it has gathered
    when the first error comes. *)
Fixpoint ListResolvedTargets_loop {A : Type} (resolve : string -> A + string)
    (ts : TargetSet) (addrs : list A) : list A * error :=
  match ts with
  | [] => (addrs, None)
  | target :: rest =>
      match resolve (AddrString target) with
      | inr err => (addrs, Some err)
      | inl addr => ListResolvedTargets_loop resolve rest (addrs ++ [addr])
      end
  end.

Definition ListResolvedTargets {A : Type} (resolve : string -> A + string)
    (ts : TargetSet) : list A * error :=
  ListResolvedTargets_loop resolve ts [].

(** [TargetsConfig.IntoTagSet(ts)]: the target sets of the map, visited in
    [order], each put into [ts] in turn. *)
Definition TargetsConfig_IntoTagSet (order : list (string * TargetSet))
    (ts : TagSet) : TagSet :=
  foldl (fun ts kv => TargetSet_IntoTagSet kv.2 ts) ts order.

(** [TargetsConfig.TagSet()]. *)
Definition TargetsConfig_TagSet (order : list (string * TargetSet)) : TagSet :=
  TargetsConfig_IntoTagSet order ∅.

(** [ToDefaultCollectorConfig(port)]: the [Targets] of the config it returns
    once the built-in default configuration has been parsed.  Every other
    field is the default one; [cc.Targets] starts as an empty map and the
    entries of the legacy map, visited in [order], are appended to
    [cc.Targets["default"]]. *)
Definition ToDefaultCollectorConfig_Targets (order : list (string * Tags))
    (port : Z) : TargetsConfig :=
  foldl (fun targets kv =>
           <["default"%string :=
               targets !!! "default"%string ++ [TargetConfig.mk kv.1 port kv.2]]>
             targets)
        ∅ order.

(* ===================================================================== *)
(** * influx.go *)
(* ===================================================================== *)

(** [DataPoint].  [Time] is set from [s.TS], which [Summary] leaves out;
    an [IDBFloat64] is a [float64]. *)
Module DataPoint.
Record t := mk {
  Fields : gmap string spec_float;
  Tags : gmap string string;
  Measurement : string;
}.
End DataPoint.

(** [SetFieldFloat64(k, v)]. *)
Definition SetFieldFloat64 (k : string) (v : spec_float) (dp : DataPoint.t)
  : DataPoint.t :=
  DataPoint.mk (<[k := v]> (DataPoint.Fields dp)) (DataPoint.Tags dp)
    (DataPoint.Measurement dp).

(** [SetFieldInt(k, v)]: [dp.Fields[k] = IDBFloat64(v)]. *)
Definition SetFieldInt (k : string) (v : Z) (dp : DataPoint.t) : DataPoint.t :=
  DataPoint.mk (<[k := F64.of_Z v]> (DataPoint.Fields dp)) (DataPoint.Tags dp)
    (DataPoint.Measurement dp).

(** [SetMeasurement(s)]. *)
Definition SetMeasurement (s : string) (dp : DataPoint.t) : DataPoint.t :=
  DataPoint.mk (DataPoint.Fields dp) (DataPoint.Tags dp) s.

(** [FromPD(pd)]; [IPString] is [net.IP.String].  A nil [pd] is
    dereferenced, which panics ([None]). *)
Definition FromPD (IPString : list byte -> string) (pd : option PathDist)
    (dp : DataPoint.t) : option DataPoint.t :=
  match pd with
  | None => None
  | Some pd =>
      let tags := <["src_ip"%string := IPString (SrcIP pd)]> (DataPoint.Tags dp) in
      let tags := <["dst_ip"%string := IPString (DstIP pd)]> tags in
      Some (DataPoint.mk (DataPoint.Fields dp) tags (DataPoint.Measurement dp))
  end.

(** [FromSummary(s)]. *)
Definition FromSummary (IPString : list byte -> string) (s : Summary.t)
    (dp : DataPoint.t) : option DataPoint.t :=
  match FromPD IPString (Summary.Pd s) dp with
  | None => None
  | Some dp =>
      let dp := SetMeasurement "raw_stats" dp in
      let dp := SetFieldFloat64 "rtt" (Summary.RTTAvg s) dp in
      let dp := SetFieldFloat64 "loss" (Summary.Loss s) dp in
      let dp := SetFieldInt "lost" (Summary.Lost s) dp in
      let dp := SetFieldInt "sent" (Summary.Sent s) dp in
      Some dp
  end.

(** [UpdateTags(t)]: [dp.Tags[k] = v] for the entries of [t], visited in
    [order]. *)
Definition UpdateTags (order : list (string * string)) (dp : DataPoint.t)
  : DataPoint.t :=
  DataPoint.mk (DataPoint.Fields dp)
    (foldl (fun tags kv => <[kv.1 := kv.2]> tags) (DataPoint.Tags dp) order)
    (DataPoint.Measurement dp).

(** [NewDataPoint(s, t)], [order] being the order in which [UpdateTags]
    visits [t]. *)
Definition NewDataPoint (IPString : list byte -> string) (s : Summary.t)
    (order : list (string * string)) : option DataPoint.t :=
  match FromSummary IPString s (DataPoint.mk ∅ ∅ ""%string) with
  | None => None
  | Some dp => Some (UpdateTags order dp)
  end.

(** [NewFromSummaries(summaries, t)].  Each summary comes with the order in
    which [UpdateTags] visits its [dstTags := t[s.Pd.DstIP.String()]]; the
    lookup dereferences [s.Pd], and panics when it is nil. *)
Fixpoint NewFromSummaries_loop (IPString : list byte -> string)
    (summaries : list (Summary.t * list (string * string)))
    (dps : list DataPoint.t) : option (list DataPoint.t) :=
  match summaries with
  | [] => Some dps
  | (s, order) :: rest =>
      match Summary.Pd s with
      | None => None
      | Some _ =>
          match NewDataPoint IPString s order with
          | None => None
          | Some dp => NewFromSummaries_loop IPString rest (dps ++ [dp])
          end
      end
  end.

Definition NewFromSummaries (IPString : list byte -> string)
    (summaries : list (Summary.t * list (string * string)))
  : option (list DataPoint.t) :=
  NewFromSummaries_loop IPString summaries [].

(** The tags a data point gets from the path of its summary. *)
Definition path_tags (IPString : list byte -> string) (pd : PathDist) : Tags :=
  {["src_ip"%string := IPString (SrcIP pd); "dst_ip"%string := IPString (DstIP pd)]}.

(* ===================================================================== *)
(** * reflector.go *)
(* ===================================================================== *)

(** The [*net.UDPConn] of the reflector: the [IP_TOS] option of its socket,
    and the datagrams written to it so far, oldest first, each with the
    destination and the [IP_TOS] the socket had when it was written. *)
Module Conn.
Record t := mk {
  IP_TOS : byte;
  written : list (list byte * UDPAddr.t * byte);
}.
End Conn.

(** [SetTos(conn, tos)]. *)
Definition SetTos (tos : byte) (conn : Conn.t) : Conn.t :=
  Conn.mk tos (Conn.written conn).

(** [Receive(dataBuf, oobBuf, conn)] with the 4096 byte [dataBuf] of
    [Reflect]: [ReadMsgUDP] copies what fits of the datagram into the
    buffer, and [data[0:dataLen]] is returned. *)
Definition Receive (datagram : list byte) : list byte := take 4096 datagram.

(** [Send(data, conn, addr)]. *)
Definition Reflector_Send (data : list byte) (addr : UDPAddr.t) (conn : Conn.t)
  : Conn.t :=
  Conn.mk (Conn.IP_TOS conn)
    (Conn.written conn ++ [(data, addr, Conn.IP_TOS conn)]).

(** The loop of [Reflect], over the datagrams that arrive, each with its
    sender.  [Unmarshal] stands for [pbProbe.Unmarshal(data)] followed by
    reading [pbProbe.Tos]: the [Tos] bytes of the probe, or an error.  Bad
    data is skipped; [pbProbe.Tos[0]] panics ([None]) on an empty [Tos].
    The rate limiter only delays an iteration.  A read or a write that
    fails ends the process ([HandleError]); the arrivals are the reads that
    succeed, and every write is taken to succeed. *)
Fixpoint Reflect_loop (Unmarshal : list byte -> list byte + string)
    (arrivals : list (list byte * UDPAddr.t)) (tos : byte) (conn : Conn.t)
  : option Conn.t :=
  match arrivals with
  | [] => Some conn
  | (datagram, addr) :: rest =>
      let data := Receive datagram in
      match Unmarshal data with
      | inr err => Reflect_loop Unmarshal rest tos conn
      | inl [] => None
      | inl (tos0 :: _) =>
          let '(tos, conn) :=
            if negb (Byte.eqb tos tos0) then (tos0, SetTos tos0 conn)
            else (tos, conn) in
          Reflect_loop Unmarshal rest tos (Reflector_Send data addr conn)
      end
  end.

(** [Reflect(conn, rl)]: [tos := byte(0)], then the loop. *)
Definition Reflect (Unmarshal : list byte -> list byte + string)
    (arrivals : list (list byte * UDPAddr.t)) (conn : Conn.t) : option Conn.t :=
  Reflect_loop Unmarshal arrivals "000"%byte conn.

(** What the reflector is to write for an arrival: the data as received, to
    its sender, under the ToS of the probe; nothing for bad data. *)
Definition echo_of (Unmarshal : list byte -> list byte + string)
    (arrival : list byte * UDPAddr.t) : option (list byte * UDPAddr.t * byte) :=
  match Unmarshal (Receive arrival.1) with
  | inl (tos0 :: _) => Some (Receive arrival.1, arrival.2, tos0)
  | _ => None
  end.

(* ===================================================================== *)
(** * Theorems *)
(* ===================================================================== *)

(** ** resulthandler.go *)

Lemma sub64_no_wrap a b : u64 a -> u64 b -> b <= a -> sub64 a b = a - b.
Proof.
  unfold u64, sub64. intros Ha Hb Hle.
  apply Z.mod_small. lia.
Qed.

(** C3.  For every Probe, the RTT conversion yields: if [recv_ns = 0] then
    [rtt = 0], [lost = true] and no error; if [recv_ns <> 0] and
    [sent_ns > recv_ns] then [rtt = 0], [lost = true] and a minor error is
    logged; otherwise [rtt = recv_ns - sent_ns], [lost = false] and no error.
    An error is logged in exactly the clock-inversion case. *)
Theorem Process_rtt_cases (p : Probe.t) (Hwf : Probe.wf p) :
  let '(r, logged) := Process p in
  (Probe.CRcvd p = 0 ->
     Result.RTT r = 0 /\ Result.Lost r = true /\ logged = []) /\
  (Probe.CRcvd p <> 0 -> Probe.CSent p > Probe.CRcvd p ->
     Result.RTT r = 0 /\ Result.Lost r = true /\ logged = [ErrOutOfOrder]) /\
  (Probe.CRcvd p <> 0 -> Probe.CSent p <= Probe.CRcvd p ->
     Result.RTT r = Probe.CRcvd p - Probe.CSent p /\
     Result.Lost r = false /\ logged = []) /\
  (logged <> [] <-> Probe.CRcvd p <> 0 /\ Probe.CSent p > Probe.CRcvd p).
Proof.
  destruct Hwf as [Hs Hr].
  unfold Process, RTT.
  destruct (Z.eqb_spec (Probe.CRcvd p) 0) as [H0 | H0]; cbn.
  - repeat split; try congruence; try lia; intros; tauto.
  - destruct (Z.gtb_spec (Probe.CSent p) (Probe.CRcvd p)) as [Hgt | Hle]; cbn.
    + repeat split; try congruence; try lia; intros; discriminate.
    + rewrite (sub64_no_wrap _ _ Hr Hs Hle).
      repeat split; try congruence; try lia; intros; tauto.
Qed.

Lemma Process_rtt_cases_witness :
  Probe.wf (Probe.mk None 200000 100000 "000"%byte) /\
  (Result.Lost (fst (Process (Probe.mk None 200000 100000 "000"%byte))) = true /\
   snd (Process (Probe.mk None 200000 100000 "000"%byte)) <> []).
Proof.
  assert (Hwf : Probe.wf (Probe.mk None 200000 100000 "000"%byte))
    by (unfold Probe.wf, u64; cbn; lia).
  split; [exact Hwf |].
  pose proof (Process_rtt_cases _ Hwf) as H.
  destruct (Process _) as [r logged].
  destruct H as (_ & Hinv & _ & Hlog). cbn in Hinv, Hlog |- *.
  split.
  - apply Hinv; lia.
  - apply Hlog. lia.
Defined.

(** C10.  The Result that [Process] builds has [Done] equal to the probe's
    [CRcvd]; a probe never received ([CRcvd = 0]) gives [Done = 0]. *)
Theorem Process_Done_is_CRcvd (p : Probe.t) :
  Result.Done (fst (Process p)) = Probe.CRcvd p /\
  ((Probe.CRcvd p = 0)%Z -> Result.Done (fst (Process p)) = 0 /\
                            Result.Lost (fst (Process p)) = true).
Proof.
  unfold Process, RTT.
  destruct (Z.eqb_spec (Probe.CRcvd p) 0) as [H0 | H0]; cbn.
  - split; [reflexivity | intros _; split; [exact H0 | reflexivity]].
  - destruct (Probe.CSent p >? Probe.CRcvd p); cbn; split; auto; contradiction.
Qed.


(** ** summarizer.go: counts and loss *)

Lemma count_lost_acc (results : list Result.t) (acc : Z) :
  fold_left (fun lost r => if Result.Lost r then lost + 1 else lost) results acc
  = acc + count_lost results.
Proof.
  unfold count_lost. revert acc.
  induction results as [| r rest IH]; intros acc; cbn.
  - lia.
  - rewrite IH, (IH (if Result.Lost r then 0 + 1 else 0)).
    destruct (Result.Lost r); lia.
Qed.

Lemma count_lost_cons (r : Result.t) (rest : list Result.t) :
  count_lost (r :: rest) = (if Result.Lost r then 1 else 0) + count_lost rest.
Proof.
  unfold count_lost at 1. cbn. rewrite count_lost_acc.
  destruct (Result.Lost r); reflexivity.
Qed.

(** [CalcCounts]: [Sent] is the length of the bucket and [Lost] the number
    of Results flagged lost. *)
Lemma CalcCounts_spec (results : list Result.t) (s : Summary.t) :
  Summary.Sent (CalcCounts results s) = Z.of_nat (length results) /\
  Summary.Lost (CalcCounts results s)
  = Z.of_nat (length (filter (fun r => Result.Lost r = true) results)).
Proof.
  split; [reflexivity |]. cbn.
  induction results as [| r rest IH].
  - reflexivity.
  - rewrite count_lost_cons, IH. rewrite filter_cons.
    destruct (Result.Lost r) eqn:E.
    + rewrite decide_True by reflexivity. cbn [length]. lia.
    + rewrite decide_False by discriminate. lia.
Qed.

(** With a non-zero [Sent], [Loss] is the float64 value of
    [(float64(Lost) / float64(Sent)) * 100.0]. *)
Lemma CalcLoss_sent_nonzero (s : Summary.t) :
  Summary.Sent s <> 0 ->
  Summary.Loss (CalcLoss s)
  = F64.mul (F64.div (F64.of_Z (Summary.Lost s)) (F64.of_Z (Summary.Sent s)))
            (F64.of_Z 100).
Proof.
  intros Hne. unfold CalcLoss.
  destruct (Z.eqb_spec (Summary.Sent s) 0); [contradiction | reflexivity].
Qed.

(** C2 (the code at its failing input).  On the empty Summary ([Sent = 0],
    [Lost = 0]) [CalcLoss] leaves [Loss = NaN]: the guarded [Loss = 0] is
    overwritten by [0.0 / 0.0 * 100.0], and [Loss] does not compare equal to
    [0]. *)
Theorem CalcLoss_zero_sent_is_NaN :
  Summary.Sent (Summary.new None) = 0 /\
  Summary.Loss (CalcLoss (Summary.new None)) = S754_nan /\
  F64.eqb (Summary.Loss (CalcLoss (Summary.new None))) F64.zero = false.
Proof. vm_compute. auto. Qed.

(** [CalcRTT] only writes the three RTT fields. *)
Lemma CalcRTT_frame (results : list Result.t) (s : Summary.t) :
  Summary.Pd (CalcRTT results s) = Summary.Pd s /\
  Summary.Sent (CalcRTT results s) = Summary.Sent s /\
  Summary.Lost (CalcRTT results s) = Summary.Lost s /\
  Summary.Loss (CalcRTT results s) = Summary.Loss s.
Proof.
  unfold CalcRTT. destruct results; [auto |].
  destruct (rtt_values _); auto.
Qed.

(** [CalcLoss] only writes [Loss]. *)
Lemma CalcLoss_frame (s : Summary.t) :
  Summary.Pd (CalcLoss s) = Summary.Pd s /\
  Summary.Sent (CalcLoss s) = Summary.Sent s /\
  Summary.Lost (CalcLoss s) = Summary.Lost s.
Proof.
  unfold CalcLoss. destruct (Summary.Sent s =? 0); auto.
Qed.

(** A bucket handed to [summarizeSet] is never empty when a Summary comes
    out, so [Sent] is positive there and [Loss] is the quotient. *)
Lemma summarizeSet_Sent_positive (results : list Result.t) (s : Summary.t) :
  summarizeSet results = Some s ->
  0 < Summary.Sent s /\
  Summary.Loss s
  = F64.mul (F64.div (F64.of_Z (Summary.Lost s)) (F64.of_Z (Summary.Sent s)))
            (F64.of_Z 100).
Proof.
  destruct results as [| r0 rest]; [discriminate |].
  intros H.
  remember (CalcCounts (r0 :: rest) (Summary.new (Result.Pd r0))) as s1 eqn:Es1.
  assert (Hs : s = CalcRTT (r0 :: rest) (CalcLoss s1))
    by (unfold summarizeSet in H; subst s1; congruence).
  clear H. subst s.
  assert (Hpos : 0 < Summary.Sent s1).
  { subst s1. rewrite (proj1 (CalcCounts_spec _ _)). cbn [length]. lia. }
  destruct (CalcRTT_frame (r0 :: rest) (CalcLoss s1)) as (_ & HS & HL & HLoss).
  destruct (CalcLoss_frame s1) as (_ & HS' & HL').
  rewrite HS, HL, HLoss, HS', HL'.
  split; [exact Hpos |].
  apply CalcLoss_sent_nonzero. lia.
Qed.

(** ** summarizer.go: the mixed bucket *)

(** C5.  A bucket of three Results of one path, with RTTs 1_000_000 ns,
    lost, and 3_000_000 ns, is summarized to [rtt_avg = 2.0], [rtt_min = 1.0],
    [rtt_max = 3.0], [sent = 3], [lost = 1] and
    [loss = (1.0 / 3.0) * 100.0 = 0x1.0aaaaaaaaaaaap+5], which lies between
    33.333333333333 and 33.333333333334. *)
Theorem summarizeSet_mixed_bucket (pd : option PathDist) :
  exists s : Summary.t,
    summarizeSet [Result.mk pd 1000000 0 false;
                  Result.mk pd 0 0 true;
                  Result.mk pd 3000000 0 false] = Some s /\
    Summary.Pd s = pd /\
    Summary.RTTAvg s = F64.of_Z 2 /\
    Summary.RTTMin s = F64.of_Z 1 /\
    Summary.RTTMax s = F64.of_Z 3 /\
    Summary.Sent s = 3 /\
    Summary.Lost s = 1 /\
    Summary.Loss s = S754_finite false 4691249611844266 (-47) /\
    F64.ltb (F64.div (F64.of_Z 33333333333333) (F64.of_Z 1000000000000))
            (Summary.Loss s) = true /\
    F64.ltb (Summary.Loss s)
            (F64.div (F64.of_Z 33333333333334) (F64.of_Z 1000000000000)) = true.
Proof.
  eexists. split; [reflexivity |].
  vm_compute. repeat split.
Qed.


(** ** float64: rounding keeps the sign *)

Lemma shr_1_nonneg (mrs : shr_record) :
  0 <= shr_m mrs -> 0 <= shr_m (shr_1 mrs).
Proof.
  destruct mrs as [m r s]. cbn [shr_m].
  destruct m as [| p | p]; [cbn; lia | | lia].
  intros _. destruct p; cbn; lia.
Qed.

Lemma iter_shr_1_nonneg (p : positive) (mrs : shr_record) :
  0 <= shr_m mrs -> 0 <= shr_m (SpecFloat.iter_pos shr_1 p mrs).
Proof.
  revert mrs. induction p as [p IH | p IH |]; intros mrs H; cbn.
  - apply IH, IH, shr_1_nonneg, H.
  - apply IH, IH, H.
  - apply shr_1_nonneg, H.
Qed.

Lemma shr_fexp_nonneg (m e : Z) (l : location) :
  0 <= m -> 0 <= shr_m (fst (shr_fexp F64.prec F64.emax m e l)).
Proof.
  intros H. unfold shr_fexp, shr.
  assert (H0 : 0 <= shr_m (shr_record_of_loc m l))
    by (destruct l as [| []]; exact H).
  destruct (fexp _ _ _ - e); cbn [fst]; auto using iter_shr_1_nonneg.
Qed.

Lemma round_nearest_even_nonneg (m : Z) (l : location) :
  0 <= m -> 0 <= round_nearest_even m l.
Proof.
  intros H. unfold round_nearest_even.
  destruct l as [| []]; try lia. destruct (Z.even m); lia.
Qed.

Lemma binary_round_aux_nonneg (m e : Z) (l : location) :
  0 <= m -> F64.nonneg (binary_round_aux F64.prec F64.emax false m e l).
Proof.
  intros H. unfold binary_round_aux.
  pose proof (shr_fexp_nonneg m e l H) as H1.
  destruct (shr_fexp F64.prec F64.emax m e l) as [mrs' e'].
  cbn [fst] in H1.
  pose proof (shr_fexp_nonneg _ e' loc_Exact
                (round_nearest_even_nonneg _ (loc_of_shr_record mrs') H1)) as H2.
  destruct (shr_fexp F64.prec F64.emax _ e' loc_Exact) as [mrs'' e''].
  cbn [fst] in H2.
  destruct (shr_m mrs'') as [| q | q]; [exact I | | lia].
  destruct (e'' <=? F64.emax - F64.prec); exact I.
Qed.

Lemma of_Z_nonneg (z : Z) : 0 <= z -> F64.nonneg (F64.of_Z z).
Proof.
  intros H. unfold F64.of_Z, binary_normalize.
  destruct z as [| p | p]; [exact I | | lia].
  unfold binary_round. destruct (shl_align _ _ _) as [mz ez].
  apply binary_round_aux_nonneg. lia.
Qed.

Lemma div_nonneg (x : spec_float) (my : positive) (ey : Z) :
  F64.nonneg x -> F64.nonneg (F64.div x (S754_finite false my ey)).
Proof.
  destruct x as [[] | [] | | [] mx ex]; cbn; try tauto.
  intros _. unfold SFdiv_core_binary.
  match goal with |- context [Z.div_eucl ?a ?b] =>
    assert (Ha : 0 <= a)
      by (match goal with |- 0 <= match ?s with _ => _ end =>
            generalize s; intros s0; destruct s0;
            [lia | apply Z.shiftl_nonneg; lia | lia] end);
    pose proof (Z.div_pos a b Ha) as Hq;
    unfold Z.div in Hq;
    destruct (Z.div_eucl a b) as [q r]
  end.
  apply binary_round_aux_nonneg. lia.
Qed.

Lemma NsToMs_nonneg (x : spec_float) : F64.nonneg x -> F64.nonneg (NsToMs x).
Proof.
  unfold NsToMs.
  change (F64.of_Z 1000000) with (S754_finite false 8589934592000000 (-33)).
  apply div_nonneg.
Qed.

(** ** float64: comparisons on non-negative values *)

Ltac cmp_cases :=
  repeat match goal with
  | |- context [Z.compare ?a ?b] => destruct (Z.compare_spec a b)
  | H : context [Z.compare ?a ?b] |- _ => destruct (Z.compare_spec a b)
  | |- context [Pos.compare ?a ?b] => destruct (Pos.compare_spec a b)
  | H : context [Pos.compare ?a ?b] |- _ => destruct (Pos.compare_spec a b)
  end.

Ltac float_order :=
  unfold F64.ltb, F64.gtb, F64.leb, SFltb, SFleb, SFcompare, F64.nonneg in *;
  change (PosDef.Pos.compare_cont Eq) with Pos.compare in *.

Lemma ltb_false_leb (x y : spec_float) :
  F64.nonneg x -> F64.nonneg y -> F64.ltb x y = false -> F64.leb y x = true.
Proof.
  destruct x as [[] | [] | | [] mx ex], y as [[] | [] | | [] my ey];
    float_order; try tauto; try discriminate; intros _ _;
    cmp_cases; subst; try discriminate; try reflexivity; lia.
Qed.

Lemma ltb_true_leb (x y : spec_float) :
  F64.ltb x y = true -> F64.leb x y = true.
Proof.
  float_order. destruct (match x with S754_nan => None | _ => _ end) as [[] |];
    auto; discriminate.
Qed.

Lemma leb_refl (x : spec_float) : F64.nonneg x -> F64.leb x x = true.
Proof.
  destruct x as [[] | [] | | [] mx ex]; float_order; try tauto; intros _;
    try reflexivity.
  rewrite Z.compare_refl, Pos.compare_refl. reflexivity.
Qed.

Lemma leb_trans (x y z : spec_float) :
  F64.nonneg x -> F64.nonneg y -> F64.nonneg z ->
  F64.leb x y = true -> F64.leb y z = true -> F64.leb x z = true.
Proof.
  destruct x as [[] | [] | | [] mx ex], y as [[] | [] | | [] my ey],
           z as [[] | [] | | [] mz ez];
    float_order; try tauto; try discriminate; try reflexivity; intros _ _ _;
    cmp_cases; subst; try discriminate; try reflexivity; intros; lia.
Qed.

(** ** summarizer.go: the RTT statistics *)

Lemma rtt_values_nonneg (results : list Result.t) :
  Forall (fun r => u64 (Result.RTT r)) results ->
  Forall F64.nonneg (rtt_values results).
Proof.
  induction 1 as [| r rest Hr _ IH]; cbn; [constructor |].
  destruct (Result.Lost r); [exact IH |].
  constructor; [| exact IH].
  apply NsToMs_nonneg, of_Z_nonneg, Hr.
Qed.

Lemma rtt_values_elem (results : list Result.t) (r : Result.t) :
  r ∈ results -> Result.Lost r = false ->
  NsToMs (F64.of_Z (Result.RTT r)) ∈ rtt_values results.
Proof.
  induction 1 as [r rest | r r' rest _ IH]; intros Hl; cbn.
  - rewrite Hl. left.
  - destruct (Result.Lost r'); [| right]; auto.
Qed.

Lemma rtt_values_all_lost (results : list Result.t) :
  (forall r, r ∈ results -> Result.Lost r = true) -> rtt_values results = [].
Proof.
  induction results as [| r rest IH]; intros H; cbn; [reflexivity |].
  rewrite (H r) by left. apply IH. intros r' Hr'. apply H. right. exact Hr'.
Qed.

(** The minimum loop, from any starting value. *)
Lemma min_loop_bounds (values : list spec_float) (m0 : spec_float) :
  Forall F64.nonneg values -> F64.nonneg m0 ->
  let m := fold_left (fun min v => if F64.ltb v min then v else min) values m0 in
  F64.nonneg m /\ F64.leb m m0 = true /\
  forall v, v ∈ values -> F64.leb m v = true.
Proof.
  intros Hvs. revert m0.
  induction Hvs as [| v rest Hv Hrest IH]; intros m0 Hm0; cbn.
  - repeat split; auto using leb_refl. intros v Hin. inversion Hin.
  - destruct (F64.ltb v m0) eqn:E.
    + destruct (IH v Hv) as (Hn & Hle & Hall).
      repeat split; [exact Hn | |].
      * eapply leb_trans; [.. | exact Hle | apply ltb_true_leb, E]; auto.
      * intros w Hw. apply elem_of_cons in Hw as [-> | Hw]; auto.
    + destruct (IH m0 Hm0) as (Hn & Hle & Hall).
      repeat split; [exact Hn | exact Hle |].
      intros w Hw. apply elem_of_cons in Hw as [-> | Hw]; auto.
      eapply leb_trans; [.. | exact Hle | apply ltb_false_leb, E]; auto.
Qed.

(** The maximum loop, from any starting value. *)
Lemma max_loop_bounds (values : list spec_float) (m0 : spec_float) :
  Forall F64.nonneg values -> F64.nonneg m0 ->
  let m := fold_left (fun max v => if F64.gtb v max then v else max) values m0 in
  F64.nonneg m /\ F64.leb m0 m = true /\
  forall v, v ∈ values -> F64.leb v m = true.
Proof.
  intros Hvs. revert m0.
  induction Hvs as [| v rest Hv Hrest IH]; intros m0 Hm0; cbn.
  - repeat split; auto using leb_refl. intros v Hin. inversion Hin.
  - destruct (F64.gtb v m0) eqn:E.
    + destruct (IH v Hv) as (Hn & Hle & Hall).
      repeat split; [exact Hn | |].
      * eapply leb_trans; [.. | apply ltb_true_leb, E | exact Hle]; auto.
      * intros w Hw. apply elem_of_cons in Hw as [-> | Hw]; auto.
    + destruct (IH m0 Hm0) as (Hn & Hle & Hall).
      repeat split; [exact Hn | exact Hle |].
      intros w Hw. apply elem_of_cons in Hw as [-> | Hw]; auto.
      eapply leb_trans; [.. | apply ltb_false_leb, E | exact Hle]; auto.
Qed.

(** C4 (counterexample).  Three Results, none lost, each with an RTT of
    100_000 ns: every value is 0.1 ms, [rtt_min = rtt_max = 0.1], and the
    running float64 sum divided by 3 is [0.10000000000000002 > rtt_max]. *)
Lemma CalcRTT_avg_exceeds_max :
  let r := Result.mk None 100000 200000 false in
  let s := CalcRTT [r; r; r] (Summary.new None) in
  ~ (F64.leb (Summary.RTTMin s) (Summary.RTTAvg s) = true /\
     F64.leb (Summary.RTTAvg s) (Summary.RTTMax s) = true).
Proof. vm_compute. intros [_ H]. discriminate H. Qed.

(** C4 (amended).  For a list of Results with at least one not lost,
    [rtt_min <= v <= rtt_max] for the ms value [v] of every Result that is
    not lost, so [rtt_min <= rtt_max], and [rtt_avg] is the float64 quotient
    of the running sum of those values by their number; when every Result is
    lost the three fields keep the [0.0] of the fresh Summary. *)
Theorem CalcRTT_min_max_bounds (results : list Result.t) (pd : option PathDist) :
  Forall (fun r => u64 (Result.RTT r)) results ->
  let s := CalcRTT results (Summary.new pd) in
  ((exists r, r ∈ results /\ Result.Lost r = false) ->
     (forall r, r ∈ results -> Result.Lost r = false ->
        F64.leb (Summary.RTTMin s) (NsToMs (F64.of_Z (Result.RTT r))) = true /\
        F64.leb (NsToMs (F64.of_Z (Result.RTT r))) (Summary.RTTMax s) = true) /\
     F64.leb (Summary.RTTMin s) (Summary.RTTMax s) = true /\
     Summary.RTTAvg s
     = F64.div (sum_values (rtt_values results))
               (F64.of_Z (Z.of_nat (length (rtt_values results))))) /\
  ((forall r, r ∈ results -> Result.Lost r = true) ->
     Summary.RTTAvg s = F64.zero /\ Summary.RTTMin s = F64.zero /\
     Summary.RTTMax s = F64.zero).
Proof.
  intros Hu s. split.
  - intros (r0 & Hin0 & Hl0).
    pose proof (rtt_values_nonneg results Hu) as Hnn.
    pose proof (rtt_values_elem results r0 Hin0 Hl0) as Hv0.
    destruct (min_loop_bounds (rtt_values results) F64.MaxFloat64 Hnn I)
      as (Hmin_nn & _ & Hmin).
    destruct (max_loop_bounds (rtt_values results) F64.zero Hnn I)
      as (Hmax_nn & _ & Hmax).
    assert (Es : s = Summary.mk pd
                  (F64.div (sum_values (rtt_values results))
                     (F64.of_Z (Z.of_nat (length (rtt_values results)))))
                  (min_values (rtt_values results))
                  (max_values (rtt_values results)) 0 0 F64.zero).
    { subst s. unfold CalcRTT. destruct results as [| r1 rest].
      - inversion Hin0.
      - destruct (rtt_values (r1 :: rest)) eqn:E; [inversion Hv0 | reflexivity]. }
    rewrite Es. cbn [Summary.RTTMin Summary.RTTMax Summary.RTTAvg].
    split; [| split; [| reflexivity]].
    + intros r Hin Hl. pose proof (rtt_values_elem results r Hin Hl) as Hv.
      split; [apply Hmin, Hv | apply Hmax, Hv].
    + eapply leb_trans; [exact Hmin_nn | | exact Hmax_nn | apply Hmin, Hv0 | apply Hmax, Hv0].
      eapply Forall_forall in Hnn; [exact Hnn | exact Hv0].
  - intros Hall. subst s. unfold CalcRTT.
    rewrite (rtt_values_all_lost results Hall).
    destruct results; auto.
Qed.

Lemma CalcRTT_min_max_bounds_witness :
  let rs := [Result.mk None 1000000 0 false; Result.mk None 0 0 true;
             Result.mk None 3000000 0 false] in
  Forall (fun r => u64 (Result.RTT r)) rs /\
  F64.leb (Summary.RTTMin (CalcRTT rs (Summary.new None)))
          (Summary.RTTMax (CalcRTT rs (Summary.new None))) = true.
Proof.
  intros rs.
  assert (Hu : Forall (fun r => u64 (Result.RTT r)) rs)
    by (repeat constructor; cbn; lia).
  split; [exact Hu |].
  apply (CalcRTT_min_max_bounds rs None Hu).
  exists (Result.mk None 1000000 0 false). split; [left | reflexivity].
Defined.

(** ** api.go: merging tag sets *)

Lemma foldl_insert_lookup {V : Type} (order : list (string * V))
    (acc : gmap string V) (k : string) :
  NoDup order.*1 ->
  foldl (fun acc kv => <[kv.1 := kv.2]> acc) acc order !! k
  = match (list_to_map order : gmap string V) !! k with
    | Some v => Some v
    | None => acc !! k
    end.
Proof.
  revert acc. induction order as [| [k1 v1] rest IH]; intros acc Hnd; cbn.
  - rewrite lookup_empty. reflexivity.
  - apply NoDup_cons in Hnd as [Hk1 Hnd].
    rewrite IH by exact Hnd.
    destruct (decide (k1 = k)) as [-> | Hne].
    + rewrite (not_elem_of_list_to_map_1 (M := gmap string) rest k Hk1).
      rewrite !lookup_insert_eq. reflexivity.
    + rewrite (lookup_insert_ne (list_to_map rest)) by exact Hne.
      destruct (list_to_map rest !! k); [reflexivity |].
      apply lookup_insert_ne, Hne.
Qed.

(** Whatever the iteration order, the merge is the left-biased union of the
    new tag set with the old one. *)
Lemma MergeUpdateTagSet_union (api : API) (t : TagSet) (order : list (string * Tags)) :
  range_order t order -> ts (MergeUpdateTagSet api order) = t ∪ ts api.
Proof.
  unfold range_order. intros Hperm. apply map_eq. intros k. cbn.
  rewrite foldl_insert_lookup.
  - rewrite (list_to_map_proper (M := gmap string) order (map_to_list t));
      [| rewrite Hperm; apply NoDup_fst_map_to_list | exact Hperm].
    rewrite list_to_map_to_list, lookup_union.
    destruct (t !! k), (ts api !! k); reflexivity.
  - rewrite Hperm. apply NoDup_fst_map_to_list.
Qed.

(** C7.  Merging [B] into [A] gives a tag set whose keys are
    [keys(A) ∪ keys(B)]: no key of [A] is deleted, a key only in [A] keeps
    [A]'s value, and a key of [B] has [B]'s value, also on a conflict. *)
Theorem MergeUpdateTagSet_additive (A B : TagSet) (order : list (string * Tags)) :
  range_order B order ->
  let M := ts (MergeUpdateTagSet {| ts := A |} order) in
  dom M = dom A ∪ dom B /\
  (forall k, k ∈ dom A -> k ∈ dom M) /\
  (forall k v, A !! k = Some v -> B !! k = None -> M !! k = Some v) /\
  (forall k v, B !! k = Some v -> M !! k = Some v).
Proof.
  intros Hord M. subst M. rewrite (MergeUpdateTagSet_union _ B order Hord). cbn.
  split; [| split; [| split]].
  - rewrite dom_union_L. apply (comm_L (∪)).
  - intros k Hk. rewrite dom_union_L. apply elem_of_union. right. exact Hk.
  - intros k v HA HB. rewrite lookup_union, HA, HB. reflexivity.
  - intros k v HB. rewrite lookup_union, HB. destruct (A !! k); reflexivity.
Qed.

Lemma MergeUpdateTagSet_additive_witness :
  let A : TagSet := {[ "example"%string := {[ "mytag"%string := "myvalue"%string ]} ]} in
  let B : TagSet := {[ "1.2.3.4"%string := {[ "a"%string := "b"%string ]} ]} in
  range_order B (map_to_list B) /\
  ts (MergeUpdateTagSet {| ts := A |} (map_to_list B)) !! "example"%string
  = Some {[ "mytag"%string := "myvalue"%string ]}.
Proof.
  intros A B.
  assert (Hord : range_order B (map_to_list B)) by (unfold range_order; reflexivity).
  split; [exact Hord |].
  destruct (MergeUpdateTagSet_additive A B (map_to_list B) Hord)
    as (_ & _ & Hkeep & _).
  apply Hkeep; reflexivity.
Defined.

(** ** util.go: signatures *)

Lemma length_string_of_list_byte (l : list byte) :
  String.length (string_of_list_byte l) = length l.
Proof.
  unfold string_of_list_byte.
  induction l as [| b l IH]; cbn; [| rewrite IH]; reflexivity.
Qed.

(** C9.  [NewID] returns a string of exactly 10 bytes, the last 10 of the
    16-byte UUID it generated, and [IDToBytes] of that string is a 10-byte
    array holding exactly those bytes. *)
Theorem NewID_last10 (fullUUID : list byte) :
  length fullUUID = 16%nat ->
  String.length (NewID fullUUID) = 10%nat /\
  list_byte_of_string (NewID fullUUID) = drop 6%nat fullUUID /\
  (exists first6, length first6 = 6%nat /\
     fullUUID = first6 ++ list_byte_of_string (NewID fullUUID)) /\
  length (IDToBytes (NewID fullUUID)) = 10%nat /\
  IDToBytes (NewID fullUUID) = list_byte_of_string (NewID fullUUID).
Proof.
  intros Hlen. unfold IDToBytes, NewID.
  rewrite length_string_of_list_byte, list_byte_of_string_of_list_byte.
  rewrite Hlen. cbn [Nat.sub].
  assert (Hl : length (drop 6%nat fullUUID) = 10%nat)
    by (rewrite length_drop, Hlen; reflexivity).
  split; [exact Hl |]. split; [reflexivity |]. split.
  - exists (take 6%nat fullUUID). split.
    + rewrite length_take, Hlen. reflexivity.
    + symmetry. apply take_drop.
  - rewrite Hl. cbn [Nat.sub replicate].
    rewrite app_nil_r, take_ge by (rewrite Hl; lia).
    split; [exact Hl | reflexivity].
Qed.

Lemma NewID_last10_witness :
  let u := ["001"; "002"; "003"; "004"; "005"; "006"; "a"; "b"; "c"; "d";
            "e"; "f"; "g"; "h"; "i"; "j"]%byte in
  length u = 16%nat /\
  NewID u = "abcdefghij"%string /\
  IDToBytes (NewID u) = ["a"; "b"; "c"; "d"; "e"; "f"; "g"; "h"; "i"; "j"]%byte.
Proof.
  intros u.
  assert (Hlen : length u = 16%nat) by reflexivity.
  split; [exact Hlen |]. split; [reflexivity |].
  destruct (NewID_last10 u Hlen) as (_ & _ & _ & _ & ->). reflexivity.
Defined.

(** ** udp.go: pack and unpack *)

Lemma Z_of_byte_of_Z (z : Z) : Z_of_byte (byte_of_Z z) = z mod 256.
Proof.
  unfold Z_of_byte, byte_of_Z.
  assert (Hr : 0 <= z mod 256 < 256) by (apply Z.mod_pos_bound; lia).
  destruct (Byte.of_N (Z.to_N (z mod 256))) as [b |] eqn:E.
  - apply Byte.to_of_N in E. cbn. rewrite E, Z2N.id; lia.
  - apply Byte.of_N_None_iff in E. lia.
Qed.

Lemma byte_of_Z_of_byte (b : byte) : byte_of_Z (Z_of_byte b) = b.
Proof.
  unfold Z_of_byte, byte_of_Z.
  pose proof (Byte.to_N_bounded b) as Hb.
  rewrite Z.mod_small by lia.
  rewrite N2Z.id, Byte.of_to_N. reflexivity.
Qed.

Lemma length_PutUint (n : nat) (v : Z) : length (PutUint n v) = n.
Proof. revert v. induction n as [| n IH]; intros v; cbn; [| rewrite IH]; reflexivity. Qed.

(** Reading back the [n] bytes written for [v] gives [v] modulo [2^(8n)]. *)
Lemma Uint_PutUint (n : nat) (v : Z) :
  Uint (PutUint n v) = v mod 2 ^ (8 * Z.of_nat n).
Proof.
  revert v. induction n as [| n IH]; intros v.
  - cbn. rewrite Z.mod_1_r. reflexivity.
  - cbn [PutUint Uint]. rewrite IH, Z_of_byte_of_Z.
    change 256 with (2 ^ 8).
    apply Z.bits_inj'. intros i Hi.
    rewrite Z.lor_spec, !Z.testbit_mod_pow2 by lia.
    destruct (Z.ltb_spec i 8) as [Hlt | Hge].
    + rewrite Z.shiftl_spec_low by lia.
      destruct (Z.ltb_spec i (8 * Z.of_nat (S n))); [| lia].
      rewrite orb_false_r. reflexivity.
    + rewrite Z.shiftl_spec by lia.
      rewrite Z.testbit_mod_pow2 by lia.
      rewrite Z.shiftr_spec by lia.
      replace (i - 8 + 8) with i by lia. cbn [andb orb].
      destruct (Z.ltb_spec (i - 8) (8 * Z.of_nat n)),
               (Z.ltb_spec i (8 * Z.of_nat (S n))); try lia; reflexivity.
Qed.

Lemma Uint_PutUint_u64 (v : Z) : u64 v -> Uint (PutUint 8 v) = v.
Proof.
  intros Hv. rewrite Uint_PutUint. apply Z.mod_small. exact Hv.
Qed.

(** C8.  Unpacking the packed bytes of a [UdpData] gives back a value equal
    to the original in every field, and no error; the encoding is 36 bytes. *)
Theorem Unpack_Pack_UdpData (d : UdpData.t) :
  UdpData.wf d ->
  exists packed : list byte,
    PackUdpData d = Some (packed, None) /\
    length packed = 36%nat /\
    UnpackUdpData packed = (d, None).
Proof.
  destruct d as [sig tos sent rcvd rtt lost].
  intros (Hsig & Hsent & Hrcvd & Hrtt). cbn in Hsig, Hsent, Hrcvd, Hrtt.
  eexists. split; [reflexivity |].
  do 11 (destruct sig as [| ? sig]; try discriminate Hsig). clear Hsig.
  cbn [UdpData.Signature UdpData.Tos UdpData.Sent UdpData.Rcvd UdpData.RTT
       UdpData.Lost app].
  split.
  - cbn [length]. rewrite !length_app, !length_PutUint. reflexivity.
  - unfold UnpackUdpData, binary_Read.
    remember (PutUint 8 sent) as bs eqn:Ebs.
    remember (PutUint 8 rcvd) as br eqn:Ebr.
    remember (PutUint 8 rtt) as bt eqn:Ebt.
    assert (Hls : length bs = 8%nat) by (subst; apply length_PutUint).
    assert (Hlr : length br = 8%nat) by (subst; apply length_PutUint).
    assert (Hlt : length bt = 8%nat) by (subst; apply length_PutUint).
    do 9 (destruct bs as [| ? bs]; try discriminate Hls).
    do 9 (destruct br as [| ? br]; try discriminate Hlr).
    do 9 (destruct bt as [| ? bt]; try discriminate Hlt).
    cbn -[Uint]. rewrite Ebs, Ebr, Ebt.
    rewrite !Uint_PutUint_u64 by assumption. reflexivity.
Qed.

(** Fewer than 36 bytes do not unpack: the error is returned with the zero
    value (the bad data of the test). *)
Lemma UnpackUdpData_short (data : list byte) :
  (length data < 36)%nat ->
  UnpackUdpData data = (UdpData.zero, Some ErrInvalidData).
Proof.
  intros Hlt. unfold UnpackUdpData, binary_Read, UdpData.size.
  destruct (Nat.ltb_spec (length data) 36); [reflexivity | lia].
Qed.

Lemma Unpack_Pack_UdpData_witness :
  let d := UdpData.mk ["a"; "b"; "c"; "d"; "e"; "f"; "g"; "h"; "i"; "j"]%byte
             "000"%byte 1234123412 1234567890 444478 "000"%byte in
  UdpData.wf d /\
  exists packed, PackUdpData d = Some (packed, None) /\
                 length packed = 36%nat /\ UnpackUdpData packed = (d, None).
Proof.
  intros d.
  assert (Hwf : UdpData.wf d) by (unfold UdpData.wf, u64; cbn; lia).
  split; [exact Hwf |].
  exact (Unpack_Pack_UdpData d Hwf).
Defined.

(** ** portgroup.go: the fan-out *)

Lemma mux_history (order : list (PortRef * ChanRef)) (addr : UDPAddr.t)
    (chans : gmap ChanRef (list UDPAddr.t)) (c : ChanRef) :
  mux order addr chans !!! c
  = chans !!! c ++ replicate (length (filter (fun pc => pc.2 = c) order)) addr.
Proof.
  unfold mux. revert chans.
  induction order as [| [p c'] rest IH]; intros chans; cbn [foldl].
  - cbn. rewrite app_nil_r. reflexivity.
  - rewrite IH. unfold chan_send. rewrite filter_cons. cbn [snd].
    destruct (decide (c' = c)) as [-> | Hne].
    + rewrite lookup_total_insert_eq. cbn [length replicate].
      rewrite <- app_assoc. reflexivity.
    + rewrite lookup_total_insert_ne by exact Hne. reflexivity.
Qed.

(** A Port whose channel no other Port of the group uses is the only entry
    of the map on that channel. *)
Lemma ports_on_unique (pg : PortGroup.t) (p : PortRef) (c : ChanRef) :
  PortGroup.ports pg !! p = Some c ->
  (forall p', PortGroup.ports pg !! p' = Some c -> p' = p) ->
  ports_on pg c = 1%nat.
Proof.
  intros Hp Huniq. unfold ports_on.
  set (l := filter (fun pc => pc.2 = c) (map_to_list (PortGroup.ports pg))).
  assert (Hnd : NoDup l) by (apply NoDup_filter, NoDup_map_to_list).
  assert (Hin : (p, c) ∈ l).
  { apply list_elem_of_filter. split; [reflexivity |].
    apply elem_of_map_to_list, Hp. }
  assert (Hall : forall x, x ∈ l -> x = (p, c)).
  { intros [p' c'] Hx. apply list_elem_of_filter in Hx as [Hc Hm].
    cbn in Hc. subst c'. apply elem_of_map_to_list in Hm.
    rewrite (Huniq p' Hm). reflexivity. }
  destruct l as [| x [| y l']].
  - inversion Hin.
  - reflexivity.
  - exfalso. apply NoDup_cons in Hnd as [Hx _]. apply Hx.
    rewrite (Hall x) by left. rewrite <- (Hall y) by (right; left). left.
Qed.

(** For any iteration order, each channel takes one copy of the address
    per Port on it. *)
Lemma mux_per_port (pg : PortGroup.t) (addr : UDPAddr.t)
    (order : list (PortRef * ChanRef)) (chans : gmap ChanRef (list UDPAddr.t))
    (c : ChanRef) :
  range_order (PortGroup.ports pg) order ->
  mux order addr chans !!! c = chans !!! c ++ replicate (ports_on pg c) addr.
Proof.
  unfold range_order. intros Hord.
  rewrite mux_history. unfold ports_on. rewrite Hord. reflexivity.
Qed.

Lemma mux_own_channel (pg : PortGroup.t) (addr : UDPAddr.t)
    (order : list (PortRef * ChanRef)) (chans : gmap ChanRef (list UDPAddr.t))
    (p : PortRef) (c : ChanRef) :
  range_order (PortGroup.ports pg) order ->
  PortGroup.ports pg !! p = Some c ->
  (forall p', PortGroup.ports pg !! p' = Some c -> p' = p) ->
  mux order addr chans !!! c = chans !!! c ++ [addr].
Proof.
  intros Hord Hp Huniq.
  rewrite (mux_per_port pg addr order chans c Hord),
    (ports_on_unique pg p c Hp Huniq).
  reflexivity.
Qed.

(** C6.  [mux] sends the address once for every Port of the group: each
    channel takes as many copies as there are Ports on it, so a Port with a
    channel of its own gets that exact address exactly once, neither skipped
    nor repeated, and a channel of no Port gets nothing. *)
Theorem mux_forwards_exactly_once (pg : PortGroup.t) (addr : UDPAddr.t)
    (order : list (PortRef * ChanRef)) (chans : gmap ChanRef (list UDPAddr.t)) :
  range_order (PortGroup.ports pg) order ->
  (forall c, mux order addr chans !!! c
             = chans !!! c ++ replicate (ports_on pg c) addr) /\
  (forall p c, PortGroup.ports pg !! p = Some c ->
     (forall p', PortGroup.ports pg !! p' = Some c -> p' = p) ->
     mux order addr chans !!! c = chans !!! c ++ [addr]) /\
  (forall c, (forall p, PortGroup.ports pg !! p <> Some c) ->
     mux order addr chans !!! c = chans !!! c).
Proof.
  intros Hord.
  split; [intros c; apply mux_per_port, Hord |]. split.
  - intros p c. apply mux_own_channel, Hord.
  - intros c Hnone. rewrite (mux_per_port pg addr order chans c Hord).
    unfold ports_on.
    destruct (filter _ _) as [| [p' c'] l] eqn:E.
    + cbn. apply app_nil_r.
    + exfalso. assert (Hin : (p', c') ∈ filter (fun pc => pc.2 = c)
                               (map_to_list (PortGroup.ports pg)))
        by (rewrite E; left).
      apply list_elem_of_filter in Hin as [Hc Hm]. cbn in Hc. subst c'.
      apply elem_of_map_to_list in Hm. exact (Hnone p' Hm).
Qed.

Lemma mux_forwards_exactly_once_witness :
  let pg := Add 2%positive 20%positive (Add 1%positive 10%positive NewPortGroup) in
  let addr := UDPAddr.mk ["000"; "000"; "000"; "000"]%byte 0 ""%string in
  range_order (PortGroup.ports pg) (map_to_list (PortGroup.ports pg)) /\
  mux (map_to_list (PortGroup.ports pg)) addr ∅ !!! 10%positive = [addr] /\
  mux (map_to_list (PortGroup.ports pg)) addr ∅ !!! 20%positive = [addr].
Proof.
  intros pg addr.
  assert (Hord : range_order (PortGroup.ports pg) (map_to_list (PortGroup.ports pg)))
    by (unfold range_order; reflexivity).
  split; [exact Hord |].
  destruct (mux_forwards_exactly_once pg addr _ ∅ Hord) as (_ & Hone & _).
  split.
  - apply (Hone 1%positive 10%positive); [reflexivity |].
    intros p' Hp'. subst pg. cbn in Hp'.
    destruct (decide (p' = 2%positive)) as [-> | H2];
      [rewrite lookup_insert_eq in Hp'; discriminate |].
    rewrite lookup_insert_ne in Hp' by congruence.
    destruct (decide (p' = 1%positive)) as [-> | H1]; [reflexivity |].
    rewrite lookup_insert_ne in Hp' by congruence. discriminate.
  - apply (Hone 2%positive 20%positive); [reflexivity |].
    intros p' Hp'. subst pg. cbn in Hp'.
    destruct (decide (p' = 2%positive)) as [-> | H2]; [reflexivity |].
    rewrite lookup_insert_ne in Hp' by congruence.
    destruct (decide (p' = 1%positive)) as [-> | H1];
      [rewrite lookup_insert_eq in Hp'; discriminate |].
    rewrite lookup_insert_ne in Hp' by congruence. discriminate.
Defined.

(** Every address taken from [tosend] before [stop] reaches the channel of
    such a Port, in arrival order. *)
Lemma run_mux_forwards_all (pg : PortGroup.t) (p : PortRef) (c : ChanRef)
    (arrivals : list (UDPAddr.t * list (PortRef * ChanRef)))
    (chans : gmap ChanRef (list UDPAddr.t)) :
  PortGroup.ports pg !! p = Some c ->
  (forall p', PortGroup.ports pg !! p' = Some c -> p' = p) ->
  Forall (fun ao => range_order (PortGroup.ports pg) ao.2) arrivals ->
  (run_mux ((fun ao => Arrive ao.1 ao.2) <$> arrivals) pg chans).2 !!! c
  = chans !!! c ++ arrivals.*1.
Proof.
  intros Hp Huniq Hall. revert chans.
  induction Hall as [| [addr order] rest Hord _ IH]; intros chans; cbn -[mux].
  - rewrite app_nil_r. reflexivity.
  - cbn -[mux] in Hord. rewrite IH.
    rewrite (mux_own_channel pg addr order chans p c Hord Hp Huniq), <- app_assoc.
    reflexivity.
Qed.

(** ** The probe cache: sweeps *)







(** ** port.go: the steps of a Port, seen from one signature *)








(** ** port.go: the fate of one probe *)

Section OneProbe.

Variables (k : string) (t TTL ts : Z) (pdv : option PathDist).
Hypothesis TTL_pos : 0 < TTL.
Hypothesis t_pos : 0 < t.





End OneProbe.


(** The Result of a probe is lost exactly when the probe was never received
    or its clock readings are inverted. *)
Lemma Process_Lost (probe : Probe.t) :
  Result.Lost (Process probe).1
  = (Probe.CRcvd probe =? 0) || (Probe.CSent probe >? Probe.CRcvd probe).
Proof.
  unfold Process, RTT.
  destruct (Probe.CRcvd probe =? 0); [reflexivity |].
  destruct (Probe.CSent probe >? Probe.CRcvd probe); reflexivity.
Qed.




(** The three ways of a probe, run on the model: S2 (loss), an echo within
    the TTL, and a stop before the sweep. *)
Example port_loss_scenario :
  let p := Recv (Send (NewPort (Build_PathDist [] 0 [] 0 "udp"%string) "000"%byte
                         2000000000 5000000000)) in
  let addr := UDPAddr.mk ["001"; "002"; "003"; "004"]%byte 8100 ""%string in
  results_of (run_port [EvSend addr "abcdefghij" 100000; EvSweep 5000000000] p).2
  = [Result.mk (Some (pd p addr)) 0 0 true].
Proof. vm_compute. reflexivity. Qed.

Example port_echo_scenario :
  let p := Recv (Send (NewPort (Build_PathDist [] 0 [] 0 "udp"%string) "000"%byte
                         2000000000 5000000000)) in
  let addr := UDPAddr.mk ["001"; "002"; "003"; "004"]%byte 8100 ""%string in
  results_of
    (run_port [EvSend addr "abcdefghij" 100000; EvRecv "abcdefghij" 200000;
               EvRecv "abcdefghij" 300000; EvSweep 5000000000;
               EvSweep 10000000000] p).2
  = [Result.mk (Some (pd p addr)) 100000 200000 false].
Proof. vm_compute. reflexivity. Qed.

Example port_stop_scenario :
  let p := Recv (Send (NewPort (Build_PathDist [] 0 [] 0 "udp"%string) "000"%byte
                         2000000000 5000000000)) in
  let addr := UDPAddr.mk ["001"; "002"; "003"; "004"]%byte 8100 ""%string in
  (run_port [EvSend addr "abcdefghij" 100000; EvRecvStop; EvSweep 5000000000] p).2
  = [].
Proof. vm_compute. reflexivity. Qed.

(* ===================================================================== *)
(** * Further properties of the code *)
(* ===================================================================== *)

(** ** udp.go: what [UnpackUdpData] accepts *)

Lemma Uint_nonneg (bs : list byte) : 0 <= Uint bs.
Proof.
  induction bs as [| b bs IH]; cbn [Uint]; [lia |].
  apply Z.lor_nonneg. split.
  - unfold Z_of_byte. lia.
  - apply Z.shiftl_nonneg, IH.
Qed.

Lemma Z_of_byte_range (b : byte) : 0 <= Z_of_byte b < 2 ^ 8.
Proof.
  unfold Z_of_byte. pose proof (Byte.to_N_bounded b). lia.
Qed.

(** Writing back the bytes that were read gives the same bytes. *)
Lemma PutUint_Uint (bs : list byte) : PutUint (length bs) (Uint bs) = bs.
Proof.
  induction bs as [| b bs IH]; cbn [length PutUint Uint]; [reflexivity |].
  pose proof (Z_of_byte_range b) as Hb. pose proof (Uint_nonneg bs) as Hu.
  f_equal.
  - rewrite <- (byte_of_Z_of_byte b) at 2. unfold byte_of_Z. do 3 f_equal.
    change 256 with (2 ^ 8).
    rewrite (Z.mod_small (Z_of_byte b)) by exact Hb.
    apply Z.bits_inj'. intros i Hi.
    rewrite Z.testbit_mod_pow2 by lia.
    destruct (Z.ltb_spec i 8) as [Hlt | Hge]; cbn [andb].
    + rewrite Z.lor_spec, Z.shiftl_spec_low by lia. apply orb_false_r.
    + rewrite <- (Z.mod_small (Z_of_byte b) (2 ^ 8)) by exact Hb.
      rewrite Z.testbit_mod_pow2 by lia.
      destruct (Z.ltb_spec i 8); [lia | reflexivity].
  - rewrite Z.shiftr_lor, Z.shiftr_shiftl_l by lia.
    rewrite Z.sub_diag, Z.shiftl_0_r.
    rewrite (Z.shiftr_div_pow2 (Z_of_byte b)) by lia.
    rewrite Z.div_small by exact Hb. cbn [Z.lor]. exact IH.
Qed.

Lemma Uint_bound (bs : list byte) : 0 <= Uint bs < 2 ^ (8 * Z.of_nat (length bs)).
Proof.
  pose proof (Uint_PutUint (length bs) (Uint bs)) as H.
  rewrite PutUint_Uint in H. rewrite H.
  apply Z.mod_pos_bound. apply Z.pow_pos_nonneg; lia.
Qed.

(** X1.  [UnpackUdpData] fails exactly on inputs shorter than the 36 bytes
    of the encoding, and then returns the zero [UdpData] with the error. *)
Theorem UnpackUdpData_error_iff_short (data : list byte) :
  ((UnpackUdpData data).2 <> None <-> (length data < 36)%nat) /\
  ((length data < 36)%nat ->
   UnpackUdpData data = (UdpData.zero, Some ErrInvalidData)).
Proof.
  unfold UnpackUdpData, binary_Read, UdpData.size.
  destruct (Nat.ltb_spec (length data) 36) as [Hlt | Hge]; cbn.
  - split; [split; [auto | discriminate] | reflexivity].
  - split; [split; [congruence | lia] | lia].
Qed.

(** X2.  Any input of at least 36 bytes unpacks without error to a
    well-formed [UdpData], whatever follows the 36th byte, and packing that
    value gives back exactly the first 36 bytes of the input. *)
Theorem Pack_Unpack_UdpData (data : list byte) :
  (36 <= length data)%nat ->
  exists d : UdpData.t,
    UnpackUdpData data = (d, None) /\
    UdpData.wf d /\
    PackUdpData d = Some (take 36%nat data, None).
Proof.
  intros Hlen.
  do 36 (destruct data as [| ? data]; [cbn in Hlen; lia |]). clear Hlen.
  eexists. split; [reflexivity |]. split.
  - unfold UdpData.wf, u64. cbn -[Uint Z.pow].
    split; [reflexivity |].
    repeat split; try apply Uint_nonneg;
      match goal with |- Uint ?bs < _ => apply (Uint_bound bs) end.
  - unfold PackUdpData, binary_Write, HandleError.
    cbn -[Uint PutUint].
    repeat match goal with
    | |- context [PutUint 8 (Uint ?bs)] =>
        change (PutUint 8 (Uint bs)) with (PutUint (length bs) (Uint bs));
        rewrite (PutUint_Uint bs)
    end.
    reflexivity.
Qed.

Lemma Pack_Unpack_UdpData_witness :
  (36 <= length (replicate 40%nat "a"%byte))%nat /\
  exists d, UnpackUdpData (replicate 40%nat "a"%byte) = (d, None) /\
            UdpData.wf d /\
            PackUdpData d = Some (replicate 36%nat "a"%byte, None).
Proof.
  assert (Hlen : (36 <= length (replicate 40%nat "a"%byte))%nat) by (cbn; lia).
  split; [exact Hlen |].
  exact (Pack_Unpack_UdpData _ Hlen).
Defined.

(** X3.  Bytes that follow a packed [UdpData] do not change what is
    unpacked. *)
Theorem Unpack_ignores_trailing (d : UdpData.t) (extra : list byte) :
  UdpData.wf d ->
  exists packed : list byte,
    PackUdpData d = Some (packed, None) /\
    UnpackUdpData (packed ++ extra) = (d, None).
Proof.
  destruct d as [sig tos sent rcvd rtt lost].
  intros (Hsig & Hsent & Hrcvd & Hrtt). cbn in Hsig, Hsent, Hrcvd, Hrtt.
  eexists. split; [reflexivity |].
  do 11 (destruct sig as [| ? sig]; try discriminate Hsig). clear Hsig.
  cbn [UdpData.Signature UdpData.Tos UdpData.Sent UdpData.Rcvd UdpData.RTT
       UdpData.Lost app].
  unfold UnpackUdpData, binary_Read.
  remember (PutUint 8 sent) as bs eqn:Ebs.
  remember (PutUint 8 rcvd) as br eqn:Ebr.
  remember (PutUint 8 rtt) as bt eqn:Ebt.
  assert (Hls : length bs = 8%nat) by (subst; apply length_PutUint).
  assert (Hlr : length br = 8%nat) by (subst; apply length_PutUint).
  assert (Hlt : length bt = 8%nat) by (subst; apply length_PutUint).
  do 9 (destruct bs as [| ? bs]; try discriminate Hls).
  do 9 (destruct br as [| ? br]; try discriminate Hlr).
  do 9 (destruct bt as [| ? bt]; try discriminate Hlt).
  cbn -[Uint]. rewrite Ebs, Ebr, Ebt.
  rewrite !Uint_PutUint_u64 by assumption. reflexivity.
Qed.

Lemma Unpack_ignores_trailing_witness :
  let d := UdpData.mk ["a"; "b"; "c"; "d"; "e"; "f"; "g"; "h"; "i"; "j"]%byte
             "000"%byte 1234123412 1234567890 444478 "001"%byte in
  UdpData.wf d /\
  exists packed, PackUdpData d = Some (packed, None) /\
                 UnpackUdpData (packed ++ ["x"; "y"]%byte) = (d, None).
Proof.
  intros d.
  assert (Hwf : UdpData.wf d) by (unfold UdpData.wf, u64; cbn; lia).
  split; [exact Hwf |].
  exact (Unpack_ignores_trailing d ["x"; "y"]%byte Hwf).
Defined.

(** ** util.go: [IDToBytes] on any string *)

Lemma String_length_bytes (s : string) :
  String.length s = length (list_byte_of_string s).
Proof.
  rewrite <- (string_of_list_byte_of_string s) at 1.
  apply length_string_of_list_byte.
Qed.

(** X4.  [IDToBytes] always returns 10 bytes: the first 10 bytes of a longer
    string, and the bytes of a shorter one followed by zeros. *)
Theorem IDToBytes_any_length (id : string) :
  length (IDToBytes id) = 10%nat /\
  ((10 <= String.length id)%nat ->
   IDToBytes id = take 10%nat (list_byte_of_string id)) /\
  ((String.length id <= 10)%nat ->
   IDToBytes id
   = list_byte_of_string id ++ replicate (10 - String.length id)%nat "000"%byte).
Proof.
  unfold IDToBytes. rewrite String_length_bytes.
  set (bs := list_byte_of_string id).
  split; [| split].
  - rewrite length_app, length_take, length_replicate. lia.
  - intros Hge. replace (10 - length bs)%nat with 0%nat by lia.
    apply app_nil_r.
  - intros Hle. rewrite take_ge by exact Hle. reflexivity.
Qed.

(** ** resulthandler.go: how the fields of a Result hang together *)

(** X5.  For a probe with [uint64] clock readings, the Result of [Process]
    carries the probe's [Pd]; its [RTT] is a [uint64]; a lost Result has
    [RTT = 0]; and a Result that is not lost has [CSent + RTT = Done], so
    the send time can be recovered from it. *)
Theorem Process_fields (p : Probe.t) :
  Probe.wf p ->
  let r := (Process p).1 in
  Result.Pd r = Probe.Pd p /\
  u64 (Result.RTT r) /\
  (Result.Lost r = true -> Result.RTT r = 0) /\
  (Result.Lost r = false -> Probe.CSent p + Result.RTT r = Result.Done r).
Proof.
  intros [Hs Hr]. unfold Process, RTT.
  destruct (Z.eqb_spec (Probe.CRcvd p) 0) as [H0 | H0]; cbn.
  - unfold u64. repeat split; try lia; intros; discriminate.
  - destruct (Z.gtb_spec (Probe.CSent p) (Probe.CRcvd p)) as [Hgt | Hle]; cbn.
    + unfold u64. repeat split; try lia; intros; discriminate.
    + rewrite (sub64_no_wrap _ _ Hr Hs Hle). unfold u64 in *.
      repeat split; try lia; intros; discriminate.
Qed.

Lemma Process_fields_witness :
  Probe.wf (Probe.mk None 100000 200000 "000"%byte) /\
  Probe.CSent (Probe.mk None 100000 200000 "000"%byte)
  + Result.RTT (Process (Probe.mk None 100000 200000 "000"%byte)).1
  = Result.Done (Process (Probe.mk None 100000 200000 "000"%byte)).1.
Proof.
  assert (Hwf : Probe.wf (Probe.mk None 100000 200000 "000"%byte))
    by (unfold Probe.wf, u64; cbn; lia).
  split; [exact Hwf |].
  apply (Process_fields _ Hwf). reflexivity.
Defined.

(** ** summarizer.go: counts and RTT statistics *)

Lemma count_lost_bounds (results : list Result.t) :
  0 <= count_lost results <= Z.of_nat (length results) /\
  (count_lost results = Z.of_nat (length results) <->
   forall r, r ∈ results -> Result.Lost r = true) /\
  (count_lost results = 0 <-> forall r, r ∈ results -> Result.Lost r = false).
Proof.
  induction results as [| r rest (IH1 & IH2 & IH3)].
  - cbn. repeat split; try lia; intros; try reflexivity;
      match goal with H : _ ∈ [] |- _ => inversion H end.
  - rewrite count_lost_cons. cbn [length].
    destruct (Result.Lost r) eqn:E.
    + split; [lia |]. split; split.
      * intros H r' Hin. apply elem_of_cons in Hin as [-> | Hin]; [exact E |].
        apply IH2; [lia | exact Hin].
      * intros H. assert (count_lost rest = Z.of_nat (length rest))
          by (apply IH2; intros; apply H; right; assumption). lia.
      * lia.
      * intros H. specialize (H r ltac:(left)). congruence.
    + split; [lia |]. split; split.
      * lia.
      * intros H. specialize (H r ltac:(left)). congruence.
      * intros H r' Hin. apply elem_of_cons in Hin as [-> | Hin]; [exact E |].
        apply IH3; [lia | exact Hin].
      * intros H. assert (count_lost rest = 0)
          by (apply IH3; intros; apply H; right; assumption). lia.
Qed.

(** X6.  After [CalcCounts], [0 <= Lost <= Sent]; [Lost = Sent] exactly when
    every Result of the bucket is lost and [Lost = 0] exactly when none is;
    [Sent] is 0 only for the empty bucket. *)
Theorem CalcCounts_bounds (results : list Result.t) (s : Summary.t) :
  let s' := CalcCounts results s in
  0 <= Summary.Lost s' <= Summary.Sent s' /\
  (Summary.Lost s' = Summary.Sent s' <->
   forall r, r ∈ results -> Result.Lost r = true) /\
  (Summary.Lost s' = 0 <-> forall r, r ∈ results -> Result.Lost r = false) /\
  (Summary.Sent s' = 0 <-> results = []).
Proof.
  cbn. destruct (count_lost_bounds results) as (H1 & H2 & H3).
  repeat (split; [assumption |]).
  destruct results; cbn [length]; split; intros; try reflexivity;
    try discriminate; lia.
Qed.

Lemma rtt_values_filter (results : list Result.t) :
  rtt_values (filter (fun r => Result.Lost r = false) results)
  = rtt_values results.
Proof.
  induction results as [| r rest IH]; [reflexivity |].
  rewrite filter_cons. cbn [rtt_values].
  destruct (Result.Lost r) eqn:E.
  - rewrite decide_False by discriminate. exact IH.
  - rewrite decide_True by reflexivity. cbn [rtt_values]. rewrite E, IH.
    reflexivity.
Qed.

(** X7.  Lost Results never enter the RTT statistics: [CalcRTT] gives the
    same Summary on a bucket and on the bucket without its lost Results,
    whatever RTT the lost Results carry. *)
Theorem CalcRTT_ignores_lost (results : list Result.t) (s : Summary.t) :
  CalcRTT results s
  = CalcRTT (filter (fun r => Result.Lost r = false) results) s.
Proof.
  unfold CalcRTT. rewrite rtt_values_filter.
  destruct results as [| r rest]; [reflexivity |].
  destruct (filter _ (r :: rest)) as [| r' rest'] eqn:E; [| reflexivity].
  rewrite <- rtt_values_filter, E. reflexivity.
Qed.

Lemma leb_zero_is_zero (v : spec_float) :
  F64.nonneg v -> F64.leb v F64.zero = true -> v = F64.zero.
Proof.
  destruct v as [[] | [] | | [] m e]; cbn; try tauto; discriminate.
Qed.

(** The maximum loop ends on its starting value or on one of the values. *)
Lemma max_loop_attained (values : list spec_float) (m0 : spec_float) :
  let m := fold_left (fun max v => if F64.gtb v max then v else max) values m0 in
  m = m0 \/ m ∈ values.
Proof.
  revert m0. induction values as [| v rest IH]; intros m0; cbn; [left; reflexivity |].
  destruct (F64.gtb v m0).
  - destruct (IH v) as [-> | Hin]; right; [left | right; exact Hin].
  - destruct (IH m0) as [-> | Hin]; [left; reflexivity | right; right; exact Hin].
Qed.

(** X8.  With at least one Result that is not lost, [rtt_max] is the ms
    value of one of the Results that are not lost (and, by C4, no such value
    is greater). *)
Theorem CalcRTT_max_attained (results : list Result.t) (pd : option PathDist) :
  Forall (fun r => u64 (Result.RTT r)) results ->
  (exists r, r ∈ results /\ Result.Lost r = false) ->
  exists r, r ∈ results /\ Result.Lost r = false /\
    Summary.RTTMax (CalcRTT results (Summary.new pd))
    = NsToMs (F64.of_Z (Result.RTT r)).
Proof.
  intros Hu (r0 & Hin0 & Hl0).
  pose proof (rtt_values_nonneg results Hu) as Hnn.
  pose proof (rtt_values_elem results r0 Hin0 Hl0) as Hv0.
  assert (Hmax : Summary.RTTMax (CalcRTT results (Summary.new pd))
                 = max_values (rtt_values results)).
  { unfold CalcRTT. destruct results as [| r1 rest]; [inversion Hin0 |].
    destruct (rtt_values (r1 :: rest)) eqn:E; [inversion Hv0 | reflexivity]. }
  rewrite Hmax.
  assert (Hin : max_values (rtt_values results) ∈ rtt_values results).
  { destruct (max_loop_attained (rtt_values results) F64.zero) as [Hz | Hin];
      [| exact Hin].
    destruct (max_loop_bounds (rtt_values results) F64.zero Hnn I) as (_ & _ & Hall).
    unfold max_values. rewrite Hz.
    assert (Hv : NsToMs (F64.of_Z (Result.RTT r0)) = F64.zero).
    { apply leb_zero_is_zero.
      - eapply Forall_forall in Hnn; [exact Hnn | exact Hv0].
      - rewrite <- Hz. apply Hall, Hv0. }
    rewrite <- Hv. exact Hv0. }
  generalize dependent (max_values (rtt_values results)). intros m _ Hin.
  clear - Hin. induction results as [| r rest IH]; cbn in Hin; [inversion Hin |].
  destruct (Result.Lost r) eqn:E.
  - destruct (IH Hin) as (r' & Hr' & Hl' & Heq).
    exists r'. split; [right; exact Hr' | split; assumption].
  - apply elem_of_cons in Hin as [Heq | Hin].
    + exists r. split; [left | split; assumption].
    + destruct (IH Hin) as (r' & Hr' & Hl' & Heq).
      exists r'. split; [right; exact Hr' | split; assumption].
Qed.

Lemma CalcRTT_max_attained_witness :
  let rs := [Result.mk None 1000000 0 false; Result.mk None 3000000 0 false] in
  Forall (fun r => u64 (Result.RTT r)) rs /\
  exists r, r ∈ rs /\ Result.Lost r = false /\
    Summary.RTTMax (CalcRTT rs (Summary.new None)) = NsToMs (F64.of_Z (Result.RTT r)).
Proof.
  intros rs.
  assert (Hu : Forall (fun r => u64 (Result.RTT r)) rs)
    by (repeat constructor; cbn; lia).
  split; [exact Hu |].
  apply (CalcRTT_max_attained rs None Hu).
  exists (Result.mk None 1000000 0 false). split; [left | reflexivity].
Defined.

(** ** summarizer.go: storing and summarizing *)

Lemma summarizeSet_head (results : list Result.t) (s : Summary.t) :
  summarizeSet results = Some s ->
  Summary.Sent s = Z.of_nat (length results) /\
  Summary.Lost s = count_lost results /\
  Summary.Pd s = (results !! 0%nat) ≫= Result.Pd.
Proof.
  destruct results as [| r0 rest]; [discriminate |].
  intros H.
  remember (CalcCounts (r0 :: rest) (Summary.new (Result.Pd r0))) as s1 eqn:Es1.
  assert (Hs : s = CalcRTT (r0 :: rest) (CalcLoss s1))
    by (unfold summarizeSet in H; subst s1; congruence).
  clear H. subst s.
  destruct (CalcRTT_frame (r0 :: rest) (CalcLoss s1)) as (-> & -> & -> & _).
  destruct (CalcLoss_frame s1) as (-> & -> & ->).
  subst s1. repeat split.
Qed.

(** The number of Results held in the buckets. *)
Lemma addResult_buckets (IPString : list byte -> string) (r : Result.t)
    (s s' : Summarizer.t) :
  addResult IPString r s = Some s' ->
  map_Forall (fun _ l => l <> []) (Summarizer.results s) ->
  map_Forall (fun _ l => l <> []) (Summarizer.results s') /\
  sum_list_with (fun kv : string * list Result.t => length kv.2)
    (map_to_list (Summarizer.results s'))
  = S (sum_list_with (fun kv : string * list Result.t => length kv.2)
         (map_to_list (Summarizer.results s))) /\
  Summarizer.Cache s' = Summarizer.Cache s.
Proof.
  unfold addResult. destruct (Result.Pd r) as [pd |]; [| discriminate].
  intros [= <-] Hne. cbn [Summarizer.results Summarizer.Cache].
  set (key := result_key IPString pd). set (m := Summarizer.results s) in *.
  split; [| split; [| reflexivity]].
  - apply map_Forall_insert_2; [| exact Hne].
    intros E. apply app_eq_nil in E as [_ E]. discriminate E.
  - rewrite <- insert_delete_eq.
    rewrite map_to_list_insert by apply lookup_delete_eq.
    cbn [sum_list_with snd]. rewrite length_app. cbn [length].
    rewrite lookup_total_alt.
    destruct (m !! key) as [l0 |] eqn:E; cbn [default from_option id].
    + rewrite <- (map_to_list_delete m key l0 E). cbn [sum_list_with snd]. lia.
    + rewrite delete_id by exact E. cbn. lia.
Qed.

Lemma store_buckets (IPString : list byte -> string) (arrived : list Result.t)
    (s : Summarizer.t) :
  Forall (fun r => Result.Pd r <> None) arrived ->
  map_Forall (fun _ l => l <> []) (Summarizer.results s) ->
  exists s',
    store IPString arrived s = Some s' /\
    map_Forall (fun _ l => l <> []) (Summarizer.results s') /\
    sum_list_with (fun kv : string * list Result.t => length kv.2)
      (map_to_list (Summarizer.results s'))
    = (length arrived
       + sum_list_with (fun kv : string * list Result.t => length kv.2)
           (map_to_list (Summarizer.results s)))%nat /\
    Summarizer.Cache s' = Summarizer.Cache s.
Proof.
  intros Hpd. revert s.
  induction Hpd as [| r rest Hr _ IH]; intros s Hne; cbn [store].
  - exists s. repeat split; auto.
  - destruct (addResult IPString r s) as [s1 |] eqn:E.
    + destruct (addResult_buckets IPString r s s1 E Hne) as (Hne1 & Hsum1 & Hc1).
      destruct (IH s1 Hne1) as (s' & Hs' & Hne' & Hsum' & Hc').
      exists s'. repeat split; auto; [| congruence].
      rewrite Hsum', Hsum1. cbn [length]. lia.
    + unfold addResult in E. destruct (Result.Pd r); [discriminate | contradiction].
Qed.

Lemma summarize_buckets (order : list (string * list Result.t)) :
  Forall (fun kv => kv.2 <> []) order ->
  exists cache,
    mapM (fun kv => summarizeSet kv.2) order = Some cache /\
    Forall2 (fun kv s => summarizeSet kv.2 = Some s) order cache /\
    total_Sent cache
    = Z.of_nat (sum_list_with (fun kv : string * list Result.t => length kv.2) order).
Proof.
  induction 1 as [| [k l] rest Hl _ (cache & Hm & Hf & Ht)].
  - exists []. repeat split. constructor.
  - cbn in Hl. destruct l as [| r0 l]; [contradiction |].
    destruct (summarizeSet (r0 :: l)) as [s0 |] eqn:E; [| discriminate E].
    exists (s0 :: cache). split; [| split].
    + apply mapM_Some. constructor; [exact E | exact Hf].
    + constructor; [exact E | exact Hf].
    + cbn [total_Sent foldr sum_list_with snd]. fold (total_Sent cache).
      rewrite Ht. destruct (summarizeSet_head _ _ E) as (-> & _). lia.
Qed.

(** X9.  Results with a [Pd], stored in a new Summarizer, never make
    [summarize] panic, whatever the order of its range loop: the buckets are
    emptied, the cache gets one Summary per bucket, each the summary of its
    bucket, and the [Sent] of the cache add up to the number of Results
    stored, so every Result is counted exactly once; a second [summarize]
    right after publishes an empty cache. *)
Theorem store_then_summarize (IPString : list byte -> string)
    (arrived : list Result.t) :
  Forall (fun r => Result.Pd r <> None) arrived ->
  exists s1,
    store IPString arrived NewSummarizer = Some s1 /\
    forall order, range_order (Summarizer.results s1) order ->
      exists s2,
        summarize order s1 = Some s2 /\
        Summarizer.results s2 = ∅ /\
        Forall2 (fun kv s => summarizeSet kv.2 = Some s) order (Summarizer.Cache s2) /\
        length (Summarizer.Cache s2) = size (Summarizer.results s1) /\
        total_Sent (Summarizer.Cache s2) = Z.of_nat (length arrived) /\
        summarize [] s2 = Some (Summarizer.mk ∅ []).
Proof.
  intros Hpd.
  destruct (store_buckets IPString arrived NewSummarizer Hpd) as (s1 & Hs1 & Hne & Hsum & _).
  { apply map_Forall_empty. }
  exists s1. split; [exact Hs1 |].
  unfold range_order. intros order Hord.
  assert (Hne' : Forall (fun kv : string * list Result.t => kv.2 <> []) order).
  { rewrite Hord. apply Forall_forall. intros [k l] Hin.
    apply elem_of_map_to_list in Hin. exact (Hne k l Hin). }
  destruct (summarize_buckets order Hne') as (cache & Hm & Hf & Ht).
  exists (Summarizer.mk ∅ cache). unfold summarize. rewrite Hm.
  cbn [Summarizer.results Summarizer.Cache].
  repeat split; auto.
  - rewrite <- (Forall2_length _ _ _ Hf), Hord. apply length_map_to_list.
  - rewrite Ht, Hord, Hsum. cbn [NewSummarizer Summarizer.results].
    rewrite map_to_list_empty. cbn. f_equal. lia.
Qed.

Lemma store_then_summarize_witness :
  let rs := [Result.mk (Some (Build_PathDist [] 1 [] 2 "udp"%string)) 1000000 0 false;
             Result.mk (Some (Build_PathDist [] 3 [] 4 "udp"%string)) 0 0 true] in
  Forall (fun r => Result.Pd r <> None) rs /\
  exists s1, store (fun _ => "ip"%string) rs NewSummarizer = Some s1 /\
    exists s2, summarize (map_to_list (Summarizer.results s1)) s1 = Some s2 /\
               total_Sent (Summarizer.Cache s2) = 2.
Proof.
  intros rs.
  assert (Hpd : Forall (fun r => Result.Pd r <> None) rs)
    by (repeat constructor; discriminate).
  split; [exact Hpd |].
  destruct (store_then_summarize (fun _ => "ip"%string) rs Hpd) as (s1 & Hs1 & H).
  exists s1. split; [exact Hs1 |].
  destruct (H (map_to_list (Summarizer.results s1))) as (s2 & Hs2 & _ & _ & _ & Ht & _).
  { unfold range_order. reflexivity. }
  exists s2. split; [exact Hs2 | exact Ht].
Defined.

Lemma store_one_bucket (IPString : list byte -> string) (src dst : list byte)
    (rs : list Result.t) (s : Summarizer.t) :
  Forall (fun r => exists pd, Result.Pd r = Some pd /\
                              SrcIP pd = src /\ DstIP pd = dst) rs ->
  store IPString rs s
  = Some (Summarizer.mk
            (if decide (rs = []) then Summarizer.results s
             else <[result_key IPString (Build_PathDist src 0 dst 0 "") :=
                      Summarizer.results s
                        !!! result_key IPString (Build_PathDist src 0 dst 0 "") ++ rs]>
                    (Summarizer.results s))
            (Summarizer.Cache s)).
Proof.
  intros Hall. revert s.
  induction Hall as [| r rest (pd & Hpd & Hsrc & Hdst) _ IH]; intros s; cbn [store].
  - rewrite decide_True by reflexivity. destruct s; reflexivity.
  - rewrite decide_False by discriminate.
    unfold addResult. rewrite Hpd.
    assert (Hkey : result_key IPString pd
                   = result_key IPString (Build_PathDist src 0 dst 0 ""))
      by (unfold result_key; rewrite Hsrc, Hdst; reflexivity).
    rewrite Hkey, IH. cbn [Summarizer.results Summarizer.Cache].
    f_equal. f_equal.
    destruct (decide (rest = [])) as [-> | Hne].
    + reflexivity.
    + rewrite lookup_total_insert_eq, insert_insert_eq, <- app_assoc. reflexivity.
Qed.

(** X10.  Results are bucketed by source and destination address only:
    Results whose paths differ in ports or protocol but not in the two
    addresses are summarized together, in one Summary that counts them all
    and carries the [Pd] of the first one stored. *)
Theorem same_addresses_one_summary (IPString : list byte -> string)
    (src dst : list byte) (r0 : Result.t) (rest : list Result.t) :
  Forall (fun r => exists pd, Result.Pd r = Some pd /\
                              SrcIP pd = src /\ DstIP pd = dst) (r0 :: rest) ->
  exists s1 key summary,
    store IPString (r0 :: rest) NewSummarizer = Some s1 /\
    Summarizer.results s1 = {[ key := r0 :: rest ]} /\
    (forall order, range_order (Summarizer.results s1) order ->
       summarize order s1 = Some (Summarizer.mk ∅ [summary])) /\
    Summary.Sent summary = Z.of_nat (S (length rest)) /\
    Summary.Pd summary = Result.Pd r0.
Proof.
  intros Hall.
  rewrite (store_one_bucket IPString src dst (r0 :: rest) NewSummarizer Hall).
  rewrite decide_False by discriminate.
  cbn [NewSummarizer Summarizer.results Summarizer.Cache].
  rewrite lookup_total_empty. cbn [app].
  destruct (summarizeSet (r0 :: rest)) as [summary |] eqn:E; [| discriminate E].
  eexists _, _, summary. split; [reflexivity |].
  split; [reflexivity |]. split.
  - unfold range_order. cbn [Summarizer.results]. intros order Hord.
    rewrite insert_empty, map_to_list_singleton in Hord.
    apply Permutation_singleton_r in Hord. subst order.
    unfold summarize.
    rewrite (proj2 (mapM_Some (fun kv : string * list Result.t => summarizeSet kv.2)
                      [(_, r0 :: rest)] [summary]));
      [reflexivity | repeat constructor; exact E].
  - destruct (summarizeSet_head _ _ E) as (-> & _ & ->). split; reflexivity.
Qed.

Lemma same_addresses_one_summary_witness :
  let r0 := Result.mk (Some (Build_PathDist ["001"]%byte 1000 ["002"]%byte 8100 "udp"%string))
              1000000 0 false in
  let r1 := Result.mk (Some (Build_PathDist ["001"]%byte 2000 ["002"]%byte 8200 "udp"%string))
              0 0 true in
  Forall (fun r => exists pd, Result.Pd r = Some pd /\
                              SrcIP pd = ["001"]%byte /\ DstIP pd = ["002"]%byte)
         [r0; r1] /\
  exists s1 key summary,
    store (fun _ => "ip"%string) [r0; r1] NewSummarizer = Some s1 /\
    Summarizer.results s1 = {[ key := [r0; r1] ]} /\
    (forall order, range_order (Summarizer.results s1) order ->
       summarize order s1 = Some (Summarizer.mk ∅ [summary])) /\
    Summary.Sent summary = 2 /\
    Summary.Pd summary = Result.Pd r0.
Proof.
  intros r0 r1.
  assert (Hall : Forall (fun r => exists pd, Result.Pd r = Some pd /\
                           SrcIP pd = ["001"]%byte /\ DstIP pd = ["002"]%byte)
                        [r0; r1]).
  { repeat constructor; eexists; repeat split. }
  split; [exact Hall |].
  exact (same_addresses_one_summary (fun _ => "ip"%string) _ _ r0 [r1] Hall).
Defined.

(** ** The TestRunner: removing a target *)

Section TestRunnerDel.

Context {A : Type} `{EqDecision A}.

(** As long as the loop meets no match it changes nothing. *)
Lemma Del_loop_no_match (indices : list nat) (addr : option A)
    (arr : list (option A)) (len : nat) :
  (forall i, i ∈ indices -> arr !! i <> Some addr) ->
  Del_loop indices addr arr len = Some (arr, len).
Proof.
  induction indices as [| i rest IH]; intros Hno; cbn [Del_loop]; [reflexivity |].
  rewrite decide_False by (apply Hno; left).
  apply IH. intros j Hj. apply Hno. right. exact Hj.
Qed.

(** Replacing the element at [i] by the last one and dropping the last
    slot removes exactly the element at [i]. *)
Lemma swap_remove_perm (S : list (option A)) (i : nat) (x : option A) :
  S !! i = Some x ->
  S ≡ₚ x :: take (length S - 1) (<[i := S !!! (length S - 1)%nat]> S).
Proof.
  intros Hi.
  destruct (decide (S = [])) as [-> | Hne]; [discriminate |].
  destruct (exists_last Hne) as (S0 & lst & ->).
  rewrite length_app. cbn [length].
  replace (length S0 + 1 - 1)%nat with (length S0) by lia.
  rewrite lookup_total_app_r by lia. rewrite Nat.sub_diag. cbn.
  destruct (decide (i < length S0)%nat) as [Hlt | Hge].
  - rewrite lookup_app_l in Hi by exact Hlt.
    rewrite insert_app_l by exact Hlt.
    rewrite take_app_length' by (rewrite length_insert; reflexivity).
    apply list_elem_of_split_length in Hi as (l1 & l2 & -> & Hl).
    rewrite Hl, insert_app_r_alt, Nat.sub_diag by lia. cbn.
    rewrite <- !app_assoc. cbn [app].
    rewrite <- (Permutation_middle l1 (l2 ++ [lst]) x).
    rewrite <- (Permutation_middle l1 l2 lst).
    rewrite (Permutation_app_comm l2 [lst]), app_assoc.
    rewrite (Permutation_app_comm l1 [lst]). reflexivity.
  - assert (Hi' : i = length S0).
    { apply lookup_lt_Some in Hi. rewrite length_app in Hi. cbn in Hi. lia. }
    subst i. rewrite lookup_app_r, Nat.sub_diag in Hi by lia.
    cbn in Hi. injection Hi as ->.
    rewrite insert_app_r_alt, Nat.sub_diag by lia. cbn.
    rewrite take_app_length. symmetry. apply Permutation_cons_append.
Qed.

(** What the loop keeps true: the slots from [len] on are nil, and the
    targets it started from are the current ones plus as many copies of
    [a] as it has dropped. *)
Lemma Del_loop_inv (a : A) (targets : list (option A)) (indices : list nat)
    (arr : list (option A)) (len : nat) :
  length arr = length targets -> (len <= length arr)%nat ->
  (forall j, (len <= j < length arr)%nat -> arr !! j = Some None) ->
  targets ≡ₚ take len arr ++ replicate (length arr - len) (Some a) ->
  exists arr' len',
    Del_loop indices (Some a) arr len = Some (arr', len') /\
    length arr' = length targets /\ (len' <= len)%nat /\
    targets ≡ₚ take len' arr' ++ replicate (length arr' - len') (Some a).
Proof.
  revert arr len.
  induction indices as [| i rest IH]; intros arr len Hlen Hle Hnil Hperm;
    cbn [Del_loop].
  - exists arr, len. repeat split; auto.
  - destruct (decide (arr !! i = Some (Some a))) as [Hm | Hm];
      [| apply IH; assumption].
    assert (Hi : (i < len)%nat).
    { destruct (decide (i < len)%nat) as [? | Hge]; [assumption |].
      assert (Hb : (i < length arr)%nat) by (eapply lookup_lt_Some; exact Hm).
      rewrite (Hnil i) in Hm by lia. discriminate Hm. }
    rewrite decide_True by exact Hi.
    set (arr1 := <[(len - 1)%nat := None]> (<[i := arr !!! (len - 1)%nat]> arr)).
    assert (Hlen1 : length arr1 = length targets)
      by (unfold arr1; rewrite !length_insert; exact Hlen).
    destruct (IH arr1 (len - 1)%nat) as (arr' & len' & Hrun & Hl' & Hle' & Hp').
    + exact Hlen1.
    + rewrite Hlen1, <- Hlen. lia.
    + intros j Hj. rewrite Hlen1, <- Hlen in Hj. unfold arr1.
      destruct (decide (j = len - 1)%nat) as [-> | Hne].
      * apply list_lookup_insert_eq. rewrite length_insert. lia.
      * rewrite list_lookup_insert_ne by lia.
        rewrite list_lookup_insert_ne by lia. apply Hnil. lia.
    + assert (Ett : take (len - 1) arr1
                    = take (length (take len arr) - 1)
                        (<[i := take len arr !!! (length (take len arr) - 1)%nat]>
                           (take len arr))).
      { rewrite length_take, Nat.min_l by exact Hle.
        rewrite lookup_total_take_lt by lia.
        unfold arr1. rewrite take_insert_ge by lia.
        destruct (decide (i < len - 1)%nat) as [Hlt | Hge].
        - rewrite !take_insert_lt by exact Hlt.
          rewrite take_take, Nat.min_l by lia. reflexivity.
        - rewrite !take_insert_ge by lia.
          rewrite take_take, Nat.min_l by lia. reflexivity. }
      assert (Hti : take len arr !! i = Some (Some a))
        by (rewrite lookup_take_lt by exact Hi; exact Hm).
      rewrite Hperm, Ett, Hlen1, <- Hlen.
      replace (length arr - (len - 1))%nat with (S (length arr - len)) by lia.
      cbn [replicate]. rewrite <- Permutation_middle.
      rewrite (swap_remove_perm (take len arr) i (Some a) Hti) at 1.
      reflexivity.
    + exists arr', len'. repeat split; auto. lia.
Qed.

Lemma Del_loop_len_le (indices : list nat) (addr : option A)
    (arr arr' : list (option A)) (len len' : nat) :
  Del_loop indices addr arr len = Some (arr', len') -> (len' <= len)%nat.
Proof.
  revert arr len. induction indices as [| i rest IH]; intros arr len; cbn [Del_loop].
  - intros [= <- <-]. lia.
  - destruct (decide (arr !! i = Some addr)); [| apply IH].
    destruct (decide (i < len)%nat); [| discriminate].
    intros Hrun. apply IH in Hrun. lia.
Qed.

(** X11.  [Del] of a non-nil address never panics and removes nothing but
    copies of that address: the old targets are the new ones plus [k] copies
    of it, with [k >= 1] when it was a target, and nothing at all changes
    when it was not; with a single occurrence the address is gone. *)
Theorem TestRunner_Del_removes (a : A) (tr : TestRunner.t A) :
  exists (tr' : TestRunner.t A) (k : nat),
    TestRunner_Del (Some a) tr = Some tr' /\
    TestRunner.targets tr ≡ₚ TestRunner.targets tr' ++ replicate k (Some a) /\
    (Some a ∈ TestRunner.targets tr -> (0 < k)%nat) /\
    (Some a ∉ TestRunner.targets tr -> tr' = tr) /\
    (length (filter (fun x => x = Some a) (TestRunner.targets tr)) = 1%nat ->
     Some a ∉ TestRunner.targets tr').
Proof.
  destruct tr as [targets]. unfold TestRunner_Del. cbn [TestRunner.targets].
  destruct (Del_loop_inv a targets (seq 0 (length targets)) targets (length targets))
    as (arr' & len' & Hrun & Hl' & Hle' & Hp'); try reflexivity.
  { intros j Hj. lia. }
  { rewrite firstn_all, Nat.sub_diag. cbn. rewrite app_nil_r. reflexivity. }
  rewrite Hrun. exists (TestRunner.mk (take len' arr')), (length arr' - len')%nat.
  cbn [TestRunner.targets].
  split; [reflexivity |]. split; [exact Hp' |].
  assert (Hin_k : Some a ∈ targets -> (0 < length arr' - len')%nat).
  { intros Hin.
    apply list_elem_of_lookup in Hin as [i0 Hi0].
    (* the first occurrence is matched *)
    assert (Hex : exists i, targets !! i = Some (Some a) /\
                    forall j, (j < i)%nat -> targets !! j <> Some (Some a)).
    { clear - Hi0 EqDecision0. revert i0 Hi0.
      induction targets as [| x l IH]; intros i0 Hi0; [discriminate |].
      destruct (decide (x = Some a)) as [-> | Hne].
      - exists 0%nat. split; [reflexivity | intros j Hj; lia].
      - destruct i0 as [| i0]; [cbn in Hi0; congruence |].
        destruct (IH i0 Hi0) as (i & Hi & Hmin).
        exists (S i). split; [exact Hi |].
        intros [| j] Hj; cbn; [congruence | apply Hmin; lia]. }
    destruct Hex as (i & Hi & Hmin).
    assert (Hib : (i < length targets)%nat) by (eapply lookup_lt_Some; exact Hi).
    assert (Hseq : seq 0 (length targets)
                   = seq 0 i ++ i :: seq (S i) (length targets - S i)).
    { replace (length targets) with (i + S (length targets - S i))%nat at 1 by lia.
      rewrite seq_app. reflexivity. }
    rewrite Hseq in Hrun.
    assert (Hrun' : Del_loop (i :: seq (S i) (length targets - S i)) (Some a)
                      targets (length targets) = Some (arr', len')).
    { revert Hrun. generalize (i :: seq (S i) (length targets - S i)). intros rest.
      assert (Hno : forall j, j ∈ seq 0 i -> targets !! j <> Some (Some a)).
      { intros j Hj. apply elem_of_seq in Hj. apply Hmin. lia. }
      clear - Hno. revert Hno. generalize (seq 0 i). intros pre Hno.
      induction pre as [| j pre IH]; cbn [app Del_loop]; [auto |].
      rewrite decide_False by (apply Hno; left).
      apply IH. intros j' Hj'. apply Hno. right. exact Hj'. }
    cbn [Del_loop] in Hrun'.
    rewrite decide_True in Hrun' by exact Hi.
    rewrite decide_True in Hrun' by exact Hib.
    apply Del_loop_len_le in Hrun'. lia. }
  split; [exact Hin_k |]. split.
  - intros Hnot. f_equal.
    rewrite Del_loop_no_match in Hrun.
    + injection Hrun as <- <-. apply firstn_all.
    + intros i _ Hi. apply Hnot. apply list_elem_of_lookup. exists i. exact Hi.
  - intros Hone Hin'.
    assert (Hin : Some a ∈ targets).
    { rewrite Hp'. apply elem_of_app. left. exact Hin'. }
    specialize (Hin_k Hin).
    assert (Hc : length (filter (fun x => x = Some a) targets)
                 = length (filter (fun x => x = Some a)
                             (take len' arr' ++ replicate (length arr' - len') (Some a))))
      by (rewrite <- Hp'; reflexivity).
    rewrite Hone, filter_app, length_app in Hc.
    assert (H1 : (1 <= length (filter (fun x => x = Some a) (take len' arr')))%nat).
    { apply list_elem_of_split in Hin' as (l1 & l2 & ->).
      rewrite filter_app, filter_cons, decide_True by reflexivity.
      rewrite length_app. cbn [length]. lia. }
    assert (H2 : (1 <= length (filter (fun x => x = Some a)
                                 (replicate (length arr' - len') (Some a))))%nat).
    { destruct (length arr' - len')%nat as [| k] eqn:Ek; [lia |].
      cbn [replicate]. rewrite filter_cons, decide_True by reflexivity.
      cbn [length]. lia. }
    lia.
Qed.


(** Once the loop has moved a copy of [addr] to slot [i0] and only visits
    later slots, that copy stays in the targets. *)
Lemma Del_loop_keeps (indices : list nat) (addr : option A)
    (arr arr' : list (option A)) (len len' i0 : nat) :
  (forall i, i ∈ indices -> (i0 < i)%nat) ->
  (i0 < len)%nat -> arr !! i0 = Some addr ->
  Del_loop indices addr arr len = Some (arr', len') ->
  (i0 < len')%nat /\ arr' !! i0 = Some addr.
Proof.
  revert arr len.
  induction indices as [| i rest IH]; intros arr len Hgt Hi0 Harr; cbn [Del_loop].
  - intros [= <- <-]. split; assumption.
  - assert (Hi : (i0 < i)%nat) by (apply Hgt; left).
    assert (Hrest : forall j, j ∈ rest -> (i0 < j)%nat)
      by (intros j Hj; apply Hgt; right; exact Hj).
    destruct (decide (arr !! i = Some addr)); [| apply IH; assumption].
    destruct (decide (i < len)%nat); [| discriminate].
    apply IH; [exact Hrest | lia |].
    rewrite !list_lookup_insert_ne by lia. exact Harr.
Qed.

(** The first index holding [x], when there is one. *)
Lemma first_occurrence (x : option A) (l : list (option A)) :
  x ∈ l ->
  exists i, l !! i = Some x /\ forall j, (j < i)%nat -> l !! j <> Some x.
Proof.
  induction l as [| y l IH]; intros Hin; [inversion Hin |].
  destruct (decide (y = x)) as [-> | Hne].
  - exists 0%nat. split; [reflexivity | intros j Hj; lia].
  - apply elem_of_cons in Hin as [-> | Hin]; [congruence |].
    destruct (IH Hin) as (i & Hi & Hmin).
    exists (S i). split; [exact Hi |].
    intros [| j] Hj; cbn; [congruence | apply Hmin; lia].
Qed.

(** The loop up to a first match at [i]. *)
Lemma Del_loop_first_match (addr : option A) (arr : list (option A))
    (len i n : nat) :
  arr !! i = Some addr ->
  (forall j, (j < i)%nat -> arr !! j <> Some addr) ->
  (i < n)%nat ->
  Del_loop (seq 0 n) addr arr len
  = if decide (i < len)%nat then
      Del_loop (seq (S i) (n - S i)) addr
        (<[(len - 1)%nat := None]> (<[i := arr !!! (len - 1)%nat]> arr))
        (len - 1)%nat
    else None.
Proof.
  intros Hi Hmin Hn.
  replace n with (i + S (n - S i))%nat at 1 by lia.
  rewrite seq_app. cbn [seq Nat.add].
  assert (Hpre : forall (pre rest : list nat),
             (forall j, j ∈ pre -> arr !! j <> Some addr) ->
             Del_loop (pre ++ rest) addr arr len = Del_loop rest addr arr len).
  { induction pre as [| j pre IH]; intros rest Hno; cbn [app Del_loop];
      [reflexivity |].
    rewrite decide_False by (apply Hno; left).
    apply IH. intros j' Hj'. apply Hno. right. exact Hj'. }
  rewrite Hpre by (intros j Hj; apply elem_of_seq in Hj; apply Hmin; lia).
  cbn [Del_loop]. rewrite decide_True by exact Hi. reflexivity.
Qed.

(** X12.  [Del] does not always remove every occurrence: when the address
    is the last target and also occurs earlier, the last copy is moved into
    the first matching slot, which the loop has already passed, and the
    address is still a target afterwards. *)
Theorem TestRunner_Del_leaves_duplicate (a : A) (l : list (option A)) :
  Some a ∈ l ->
  exists tr', TestRunner_Del (Some a) (TestRunner.mk (l ++ [Some a])) = Some tr' /\
    Some a ∈ TestRunner.targets tr'.
Proof.
  intros Hin.
  destruct (first_occurrence (Some a) l Hin) as (i & Hi & Hmin).
  assert (Hil : (i < length l)%nat) by (eapply lookup_lt_Some; exact Hi).
  unfold TestRunner_Del. cbn [TestRunner.targets].
  destruct (Del_loop (seq 0 (length (l ++ [Some a]))) (Some a) (l ++ [Some a])
              (length (l ++ [Some a]))) as [[arr' len'] |] eqn:Hrun.
  - exists (TestRunner.mk (take len' arr')). split; [reflexivity |].
    cbn [TestRunner.targets].
    rewrite (Del_loop_first_match (Some a) (l ++ [Some a]) _ i) in Hrun.
    + rewrite length_app in Hrun. cbn [length] in Hrun.
      rewrite decide_True in Hrun by lia.
      apply Del_loop_keeps with (i0 := i) in Hrun as [Hlt Harr].
      * apply elem_of_take. exists i. split; assumption.
      * intros j Hj. apply elem_of_seq in Hj. lia.
      * lia.
      * rewrite list_lookup_insert_ne by lia.
        replace (length l + 1 - 1)%nat with (length l) by lia.
        rewrite lookup_total_app_r, Nat.sub_diag by lia. cbn.
        apply list_lookup_insert_eq. rewrite length_app. cbn. lia.
    + rewrite lookup_app_l by exact Hil. exact Hi.
    + intros j Hj. rewrite lookup_app_l by lia. apply Hmin, Hj.
    + rewrite length_app. cbn. lia.
  - exfalso.
    destruct (Del_loop_inv a (l ++ [Some a]) (seq 0 (length (l ++ [Some a])))
                (l ++ [Some a]) (length (l ++ [Some a])))
      as (arr' & len' & Hdel & _); try reflexivity.
    { intros j Hj. lia. }
    { rewrite firstn_all, Nat.sub_diag. cbn. rewrite app_nil_r. reflexivity. }
    rewrite Hrun in Hdel. discriminate Hdel.
Qed.


(** X13.  [Del(nil)] panics when a nil target stands anywhere but last: the
    first match puts nil in the last slot and shortens the slice, and the
    loop, which still visits that slot, matches it and indexes past the
    end. *)
Theorem TestRunner_Del_nil_panics (l1 l2 : list (option A)) (x : option A) :
  TestRunner_Del None (TestRunner.mk (l1 ++ None :: l2 ++ [x])) = None.
Proof.
  assert (Hin : (None : option A) ∈ l1 ++ None :: l2 ++ [x])
    by (apply elem_of_app; right; left).
  destruct (first_occurrence None _ Hin) as (i & Hi & Hmin).
  set (targets := l1 ++ None :: l2 ++ [x]) in *.
  assert (Hlen : length targets = S (length l1 + S (length l2)))
    by (unfold targets; rewrite length_app; cbn; rewrite length_app; cbn; lia).
  assert (Hil : (i <= length l1)%nat).
  { destruct (decide (i <= length l1)%nat) as [? | Hgt]; [assumption |].
    exfalso. apply (Hmin (length l1)); [lia |].
    unfold targets. rewrite lookup_app_r, Nat.sub_diag by lia. reflexivity. }
  unfold TestRunner_Del. cbn [TestRunner.targets].
  rewrite (Del_loop_first_match None targets _ i _ Hi Hmin) by lia.
  rewrite decide_True by lia.
  (* the last slot is nil now, lies outside the slice, and is still visited *)
  set (n := length targets) in *.
  assert (Hpanic : forall (indices : list nat) (arr : list (option A)) (len : nat),
             (exists j, j ∈ indices /\ (len <= j)%nat /\ arr !! j = Some None) ->
             Del_loop indices None arr len = None).
  { induction indices as [| i' rest IH]; intros arr len (j & Hj & Hle & Harr);
      [inversion Hj |].
    cbn [Del_loop].
    destruct (decide (arr !! i' = Some None)) as [Hm | Hm].
    - destruct (decide (i' < len)%nat) as [Hlt | Hge]; [| reflexivity].
      apply IH. exists j. split; [| split].
      + apply elem_of_cons in Hj as [-> | Hj]; [lia | exact Hj].
      + lia.
      + rewrite !list_lookup_insert_ne by lia. exact Harr.
    - apply IH. exists j. split; [| split; assumption].
      apply elem_of_cons in Hj as [-> | Hj]; [congruence | exact Hj]. }
  rewrite Hpanic; [reflexivity |].
  exists (n - 1)%nat. split; [| split].
  - apply elem_of_seq. lia.
  - lia.
  - apply list_lookup_insert_eq. rewrite length_insert. fold n. lia.
Qed.

(** X14.  [Del] undoes an [Add] of an address that was no target before:
    the targets are back as they were, in the same order. *)
Theorem TestRunner_Del_Add (a : A) (tr : TestRunner.t A) :
  Some a ∉ TestRunner.targets tr ->
  TestRunner_Del (Some a) (TestRunner_Add [Some a] tr) = Some tr.
Proof.
  destruct tr as [targets]. cbn [TestRunner.targets]. intros Hnot.
  unfold TestRunner_Del, TestRunner_Add. cbn [TestRunner.targets].
  assert (Hlen : length (targets ++ [Some a]) = S (length targets))
    by (rewrite length_app; cbn; lia).
  rewrite (Del_loop_first_match (Some a) (targets ++ [Some a]) _ (length targets)).
  - rewrite decide_True by lia.
    rewrite Hlen. replace (S (length targets) - S (length targets))%nat with 0%nat by lia.
    cbn [seq Del_loop]. f_equal. f_equal.
    replace (S (length targets) - 1)%nat with (length targets) by lia.
    rewrite take_insert_ge by lia. rewrite take_insert_ge by lia.
    apply take_app_length.
  - rewrite lookup_app_r, Nat.sub_diag by lia. reflexivity.
  - intros j Hj Hm. rewrite lookup_app_l in Hm by exact Hj.
    apply Hnot. apply list_elem_of_lookup. exists j. exact Hm.
  - lia.
Qed.


End TestRunnerDel.

Lemma TestRunner_Del_leaves_duplicate_witness :
  Some 7%positive ∈ [Some 7%positive; Some 8%positive] /\
  exists tr',
    TestRunner_Del (Some 7%positive)
      (TestRunner.mk ([Some 7%positive; Some 8%positive] ++ [Some 7%positive]))
    = Some tr' /\ Some 7%positive ∈ TestRunner.targets tr'.
Proof.
  assert (Hin : Some 7%positive ∈ [Some 7%positive; Some 8%positive]) by left.
  split; [exact Hin |].
  exact (TestRunner_Del_leaves_duplicate 7%positive _ Hin).
Defined.

Lemma TestRunner_Del_Add_witness :
  let tr := TestRunner.mk [Some 1%positive; Some 2%positive] in
  (Some 3%positive ∉ TestRunner.targets tr) /\
  TestRunner_Del (Some 3%positive) (TestRunner_Add [Some 3%positive] tr) = Some tr.
Proof.
  intros tr.
  assert (Hnot : Some 3%positive ∉ TestRunner.targets tr).
  { cbn. intros Hin. repeat (apply elem_of_cons in Hin as [Hin | Hin]; [discriminate |]).
    inversion Hin. }
  split; [exact Hnot |].
  exact (TestRunner_Del_Add 3%positive tr Hnot).
Defined.

(** ** portgroup.go: running and stopping *)

(** A channel that no Port of the group uses takes nothing. *)
Lemma mux_no_port (pg : PortGroup.t) (addr : UDPAddr.t)
    (order : list (PortRef * ChanRef)) (chans : gmap ChanRef (list UDPAddr.t))
    (c : ChanRef) :
  range_order (PortGroup.ports pg) order ->
  (forall p, PortGroup.ports pg !! p <> Some c) ->
  mux order addr chans !!! c = chans !!! c.
Proof.
  intros Hord Hnone. rewrite (mux_per_port pg addr order chans c Hord).
  unfold ports_on.
  destruct (filter _ _) as [| [p' c'] l] eqn:E.
  - cbn. apply app_nil_r.
  - exfalso.
    assert (Hin : (p', c') ∈ filter (fun pc => pc.2 = c)
                    (map_to_list (PortGroup.ports pg)))
      by (rewrite E; left).
    apply list_elem_of_filter in Hin as [Hc Hm]. cbn in Hc. subst c'.
    apply elem_of_map_to_list in Hm. exact (Hnone p' Hm).
Qed.

Lemma run_mux_app_arrivals (arrivals : list (UDPAddr.t * list (PortRef * ChanRef)))
    (later : list mux_event) (pg : PortGroup.t)
    (chans : gmap ChanRef (list UDPAddr.t)) :
  run_mux (((fun ao => Arrive ao.1 ao.2) <$> arrivals) ++ later) pg chans
  = run_mux later pg
      (run_mux ((fun ao => Arrive ao.1 ao.2) <$> arrivals) pg chans).2.
Proof.
  revert chans. induction arrivals as [| [addr order] rest IH]; intros chans.
  - reflexivity.
  - cbn -[mux]. apply IH.
Qed.

(** X15.  [run] forwards what arrives on [tosend] until [stop] and nothing
    after it: once stopped the group has no Ports, whatever arrives later
    reaches no channel, and a Port with a channel of its own has received
    exactly the addresses that arrived before the stop, in arrival order. *)
Theorem run_stops (pg : PortGroup.t) (p : PortRef) (c : ChanRef)
    (arrivals : list (UDPAddr.t * list (PortRef * ChanRef)))
    (later : list mux_event) (chans : gmap ChanRef (list UDPAddr.t)) :
  PortGroup.ports pg !! p = Some c ->
  (forall p', PortGroup.ports pg !! p' = Some c -> p' = p) ->
  Forall (fun ao => range_order (PortGroup.ports pg) ao.2) arrivals ->
  let events := ((fun ao => Arrive ao.1 ao.2) <$> arrivals) ++ Stopped :: later in
  PortGroup.ports (run_mux events pg chans).1 = ∅ /\
  (run_mux events pg chans).2
  = (run_mux ((fun ao => Arrive ao.1 ao.2) <$> arrivals) pg chans).2 /\
  (run_mux events pg chans).2 !!! c = chans !!! c ++ arrivals.*1.
Proof.
  intros Hp Huniq Hall events. unfold events.
  rewrite run_mux_app_arrivals. cbn [run_mux fst snd PortGroup.ports].
  repeat split.
  apply run_mux_forwards_all with (p := p); assumption.
Qed.

Lemma run_stops_witness :
  let pg := Add 1%positive 10%positive NewPortGroup in
  let a1 := UDPAddr.mk ["001"; "001"; "001"; "001"]%byte 8100 ""%string in
  let a2 := UDPAddr.mk ["002"; "002"; "002"; "002"]%byte 8100 ""%string in
  let order := map_to_list (PortGroup.ports pg) in
  let events := [Arrive a1 order; Arrive a2 order; Stopped; Arrive a1 order] in
  PortGroup.ports (run_mux events pg ∅).1 = ∅ /\
  (run_mux events pg ∅).2 !!! 10%positive = [a1; a2].
Proof.
  intros pg a1 a2 order events.
  assert (Hp : PortGroup.ports pg !! 1%positive = Some 10%positive) by reflexivity.
  assert (Huniq : forall p', PortGroup.ports pg !! p' = Some 10%positive
                             -> p' = 1%positive).
  { intros p' Hp'. subst pg. cbn in Hp'.
    destruct (decide (p' = 1%positive)) as [-> | Hne]; [reflexivity |].
    rewrite lookup_insert_ne in Hp' by congruence. discriminate. }
  assert (Hall : Forall (fun ao : UDPAddr.t * list (PortRef * ChanRef) =>
                           range_order (PortGroup.ports pg) ao.2)
                   [(a1, order); (a2, order)]).
  { repeat constructor; unfold range_order; reflexivity. }
  destruct (run_stops pg 1%positive 10%positive [(a1, order); (a2, order)]
              [Arrive a1 order] ∅ Hp Huniq Hall) as (Hempty & _ & Hc).
  split; [exact Hempty | exact Hc].
Defined.

(** X16.  [Add] and [Del] decide who [mux] serves.  After [Del(p)] the
    channel that only [p] had takes nothing; after [Add(p, c')] on a Port
    already in the group its old channel takes nothing and the new one, if
    no other Port has it, takes the address once. *)
Theorem mux_after_Add_Del (pg : PortGroup.t) (p : PortRef) (c c' : ChanRef)
    (addr : UDPAddr.t) (chans : gmap ChanRef (list UDPAddr.t)) :
  PortGroup.ports pg !! p = Some c ->
  (forall p', PortGroup.ports pg !! p' = Some c -> p' = p) ->
  (forall p', PortGroup.ports pg !! p' <> Some c') ->
  (forall order, range_order (PortGroup.ports (Del p pg)) order ->
     mux order addr chans !!! c = chans !!! c) /\
  (forall order, range_order (PortGroup.ports (Add p c' pg)) order ->
     mux order addr chans !!! c = chans !!! c /\
     mux order addr chans !!! c' = chans !!! c' ++ [addr]).
Proof.
  intros Hp Huniq Hfree.
  assert (Hcc : c <> c') by (intros ->; exact (Hfree p Hp)).
  split.
  - intros order Hord. apply (mux_no_port (Del p pg)); [exact Hord |].
    intros p' Hp'. cbn in Hp'.
    apply lookup_delete_Some in Hp' as [Hne Hp'].
    apply Hne. symmetry. apply Huniq, Hp'.
  - intros order Hord. split.
    + apply (mux_no_port (Add p c' pg)); [exact Hord |].
      intros p' Hp'. cbn in Hp'.
      destruct (decide (p' = p)) as [-> | Hne].
      * rewrite lookup_insert_eq in Hp'. congruence.
      * rewrite lookup_insert_ne in Hp' by congruence.
        apply Hne, Huniq, Hp'.
    + apply (mux_own_channel (Add p c' pg) addr order chans p c' Hord).
      * cbn. apply lookup_insert_eq.
      * intros p' Hp'. cbn in Hp'.
        destruct (decide (p' = p)) as [-> | Hne]; [reflexivity |].
        rewrite lookup_insert_ne in Hp' by congruence.
        exfalso. exact (Hfree p' Hp').
Qed.

Lemma mux_after_Add_Del_witness :
  let pg := Add 1%positive 10%positive NewPortGroup in
  let addr := UDPAddr.mk ["001"; "001"; "001"; "001"]%byte 8100 ""%string in
  mux (map_to_list (PortGroup.ports (Del 1%positive pg))) addr ∅ !!! 10%positive = [] /\
  mux (map_to_list (PortGroup.ports (Add 1%positive 20%positive pg))) addr ∅
    !!! 20%positive = [addr].
Proof.
  intros pg addr.
  assert (Hp : PortGroup.ports pg !! 1%positive = Some 10%positive) by reflexivity.
  assert (Huniq : forall p', PortGroup.ports pg !! p' = Some 10%positive
                             -> p' = 1%positive).
  { intros p' Hp'. subst pg. cbn in Hp'.
    destruct (decide (p' = 1%positive)) as [-> | Hne]; [reflexivity |].
    rewrite lookup_insert_ne in Hp' by congruence. discriminate. }
  assert (Hfree : forall p', PortGroup.ports pg !! p' <> Some 20%positive).
  { intros p' Hp'. subst pg. cbn in Hp'.
    destruct (decide (p' = 1%positive)) as [-> | Hne].
    - rewrite lookup_insert_eq in Hp'. discriminate.
    - rewrite lookup_insert_ne in Hp' by congruence. discriminate. }
  destruct (mux_after_Add_Del pg 1%positive 10%positive 20%positive addr ∅
              Hp Huniq Hfree) as [HDel HAdd].
  split.
  - apply HDel. unfold range_order. reflexivity.
  - apply HAdd. unfold range_order. reflexivity.
Defined.

(** ** config.go: tag sets from targets *)

Lemma TargetSet_IntoTagSet_lookup (ts : TargetSet) (tagset : TagSet) (ip : string) :
  TargetSet_IntoTagSet ts tagset !! ip
  = match last (filter (fun t => TargetConfig.IP t = ip) ts) with
    | Some t => Some (TargetConfig.Tags t)
    | None => tagset !! ip
    end.
Proof.
  unfold TargetSet_IntoTagSet. revert tagset.
  induction ts as [| t rest IH]; intros tagset; cbn [foldl]; [reflexivity |].
  rewrite IH, filter_cons.
  destruct (decide (TargetConfig.IP t = ip)) as [E | E].
  - rewrite last_cons.
    destruct (last (filter _ rest)); [reflexivity |].
    rewrite E. apply lookup_insert_eq.
  - destruct (last (filter _ rest)); [reflexivity |].
    apply lookup_insert_ne, E.
Qed.

(** X17.  [TargetSet.IntoTagSet] gives each IP the tags of the last target
    of the slice that has this IP, and leaves the entry of any other IP as
    it was; so [TargetSet.TagSet] has exactly the IPs of the targets. *)
Theorem TargetSet_IntoTagSet_last_wins (ts : TargetSet) (tagset : TagSet)
    (ip : string) :
  TargetSet_IntoTagSet ts tagset !! ip
  = match last (filter (fun t => TargetConfig.IP t = ip) ts) with
    | Some t => Some (TargetConfig.Tags t)
    | None => tagset !! ip
    end /\
  (is_Some (TargetSet_TagSet ts !! ip) <-> ip ∈ TargetConfig.IP <$> ts).
Proof.
  split; [apply TargetSet_IntoTagSet_lookup |].
  unfold TargetSet_TagSet. rewrite TargetSet_IntoTagSet_lookup, lookup_empty.
  rewrite list_elem_of_fmap. split.
  - intros [tags Htags].
    destruct (last (filter _ ts)) as [t |] eqn:E; [| discriminate].
    apply last_Some in E as [l' E].
    assert (Hin : t ∈ filter (fun t => TargetConfig.IP t = ip) ts)
      by (rewrite E; apply elem_of_app; right; left).
    apply list_elem_of_filter in Hin as [Hip Hin].
    exists t. split; [symmetry; exact Hip | exact Hin].
  - intros (t & Hip & Hin).
    assert (Hf : t ∈ filter (fun t => TargetConfig.IP t = ip) ts)
      by (apply list_elem_of_filter; split; [symmetry; exact Hip | exact Hin]).
    destruct (last (filter _ ts)) as [t' |] eqn:E; [eexists; reflexivity |].
    apply last_None in E. rewrite E in Hf. inversion Hf.
Qed.

Lemma elem_of_concat {A : Type} (x : A) (ls : list (list A)) :
  x ∈ concat ls <-> exists l, x ∈ l /\ l ∈ ls.
Proof.
  induction ls as [| l ls IH]; cbn.
  - split; [intros H; inversion H | intros (l & _ & H); inversion H].
  - rewrite elem_of_app, IH. split.
    + intros [H | (l' & H1 & H2)].
      * exists l. split; [exact H | left].
      * exists l'. split; [exact H1 | right; exact H2].
    + intros (l' & H1 & H2). apply elem_of_cons in H2 as [-> | H2].
      * left. exact H1.
      * right. exists l'. split; assumption.
Qed.

Lemma TargetsConfig_IntoTagSet_concat (order : list (string * TargetSet))
    (ts : TagSet) :
  TargetsConfig_IntoTagSet order ts = TargetSet_IntoTagSet (concat order.*2) ts.
Proof.
  unfold TargetsConfig_IntoTagSet, TargetSet_IntoTagSet. revert ts.
  induction order as [| [name set] rest IH]; intros ts; cbn; [reflexivity |].
  rewrite foldl_app. apply IH.
Qed.

(** X18.  Whatever the order of the range loop, [TargetsConfig.TagSet] has an
    entry for exactly the IPs of the targets of all sets, each entry being
    the tags of one of the targets with that IP; for an IP whose targets
    all lie in one set, it is what [TargetSet.TagSet] of that set gives. *)
Theorem TargetsConfig_TagSet_entries (tc : TargetsConfig)
    (order : list (string * TargetSet)) (ip : string) :
  range_order tc order ->
  (TargetsConfig_TagSet order !! ip = None <->
   forall name set t, tc !! name = Some set -> t ∈ set -> TargetConfig.IP t <> ip) /\
  (forall tags, TargetsConfig_TagSet order !! ip = Some tags ->
     exists name set t, tc !! name = Some set /\ t ∈ set /\
       TargetConfig.IP t = ip /\ TargetConfig.Tags t = tags) /\
  (forall name set, tc !! name = Some set ->
     (forall name' set' t, tc !! name' = Some set' -> t ∈ set' ->
        TargetConfig.IP t = ip -> name' = name) ->
     TargetsConfig_TagSet order !! ip = TargetSet_TagSet set !! ip).
Proof.
  unfold range_order. intros Hord.
  assert (Hin : forall name set, (name, set) ∈ order <-> tc !! name = Some set).
  { intros name set. rewrite Hord. apply elem_of_map_to_list. }
  unfold TargetsConfig_TagSet, TargetSet_TagSet.
  rewrite TargetsConfig_IntoTagSet_concat.
  assert (Hcat : forall t, t ∈ concat order.*2 <->
                   exists name set, tc !! name = Some set /\ t ∈ set).
  { intros t. rewrite elem_of_concat. split.
    - intros (set & Ht & Hset). apply list_elem_of_fmap in Hset as ([name set'] & -> & Hns).
      exists name, set'. split; [apply Hin, Hns | exact Ht].
    - intros (name & set & Htc & Ht). exists set. split; [exact Ht |].
      apply list_elem_of_fmap. exists (name, set). split; [reflexivity | apply Hin, Htc]. }
  split; [| split].
  - rewrite TargetSet_IntoTagSet_lookup, lookup_empty. split.
    + intros Hnone name set t Htc Ht Hip.
      destruct (last (filter _ (concat order.*2))) as [t' |] eqn:E; [discriminate |].
      apply last_None in E.
      assert (Hf : t ∈ filter (fun t => TargetConfig.IP t = ip) (concat order.*2)).
      { apply list_elem_of_filter. split; [exact Hip |].
        apply Hcat. exists name, set. split; assumption. }
      rewrite E in Hf. inversion Hf.
    + intros Hall.
      destruct (last (filter _ (concat order.*2))) as [t' |] eqn:E; [| reflexivity].
      exfalso. apply last_Some in E as [l' E].
      assert (Hf : t' ∈ filter (fun t => TargetConfig.IP t = ip) (concat order.*2))
        by (rewrite E; apply elem_of_app; right; left).
      apply list_elem_of_filter in Hf as [Hip Hf].
      apply Hcat in Hf as (name & set & Htc & Ht).
      exact (Hall name set t' Htc Ht Hip).
  - intros tags. rewrite TargetSet_IntoTagSet_lookup, lookup_empty.
    destruct (last (filter _ (concat order.*2))) as [t' |] eqn:E; [| discriminate].
    intros [= <-]. apply last_Some in E as [l' E].
    assert (Hf : t' ∈ filter (fun t => TargetConfig.IP t = ip) (concat order.*2))
      by (rewrite E; apply elem_of_app; right; left).
    apply list_elem_of_filter in Hf as [Hip Hf].
    apply Hcat in Hf as (name & set & Htc & Ht).
    exists name, set, t'. repeat split; assumption.
  - intros name set Htc Honly.
    rewrite !TargetSet_IntoTagSet_lookup.
    assert (Hns : (name, set) ∈ order) by (apply Hin, Htc).
    apply list_elem_of_split in Hns as (o1 & o2 & Eo).
    assert (Hnd : NoDup order.*1) by (rewrite Hord; apply NoDup_fst_map_to_list).
    assert (Hother : forall name' set', (name', set') ∈ o1 ++ o2 ->
              filter (fun t => TargetConfig.IP t = ip) set' = []).
    { intros name' set' Hin'.
      assert (Hne : name' <> name).
      { intros ->. rewrite Eo, fmap_app, fmap_cons in Hnd. cbn in Hnd.
        apply NoDup_app in Hnd as (_ & Hdisj & Hnd2).
        apply NoDup_cons in Hnd2 as [Hn2 _].
        apply elem_of_app in Hin' as [Hin' | Hin'].
        - apply (Hdisj name); [| left].
          apply list_elem_of_fmap. exists (name, set'). split; [reflexivity | exact Hin'].
        - apply Hn2. apply list_elem_of_fmap. exists (name, set').
          split; [reflexivity | exact Hin']. }
      assert (Htc' : tc !! name' = Some set').
      { apply Hin. rewrite Eo. apply elem_of_app in Hin' as [Hin' | Hin'];
          apply elem_of_app; [left | right; right]; exact Hin'. }
      destruct (filter _ set') as [| t l] eqn:E; [reflexivity |].
      exfalso. apply Hne.
      assert (Hf : t ∈ filter (fun t => TargetConfig.IP t = ip) set')
        by (rewrite E; left).
      apply list_elem_of_filter in Hf as [Hip Hf].
      exact (Honly name' set' t Htc' Hf Hip). }
    assert (Hnil : forall o : list (string * TargetSet),
                   (forall name' set', (name', set') ∈ o ->
                       filter (fun t => TargetConfig.IP t = ip) set' = []) ->
                   filter (fun t => TargetConfig.IP t = ip) (concat o.*2) = []).
    { induction o as [| [n s] o IH]; intros Ho; cbn; [reflexivity |].
      rewrite filter_app, (Ho n s) by left. cbn.
      apply IH. intros n' s' Hn'. apply (Ho n' s'). right. exact Hn'. }
    rewrite Eo, fmap_app, fmap_cons, concat_app. cbn [concat snd].
    rewrite !filter_app.
    rewrite (Hnil o1), (Hnil o2).
    + rewrite app_nil_r. reflexivity.
    + intros n s Hn. apply (Hother n s). apply elem_of_app. right. exact Hn.
    + intros n s Hn. apply (Hother n s). apply elem_of_app. left. exact Hn.
Qed.

Lemma TargetsConfig_TagSet_entries_witness :
  let t1 := TargetConfig.mk "10.0.0.1" 8100 {["dst_cluster" := "a"]} in
  let t2 := TargetConfig.mk "10.0.0.2" 8100 {["dst_cluster" := "b"]} in
  let tc : TargetsConfig := {["default" := [t1; t2]]} in
  TargetsConfig_TagSet (map_to_list tc) !! "10.0.0.2"%string
  = TargetSet_TagSet [t1; t2] !! "10.0.0.2"%string.
Proof.
  intros t1 t2 tc.
  assert (Hord : range_order tc (map_to_list tc)) by (unfold range_order; reflexivity).
  destruct (TargetsConfig_TagSet_entries tc (map_to_list tc) "10.0.0.2" Hord)
    as (_ & _ & Hone).
  apply (Hone "default"%string); [reflexivity |].
  intros name' set' t Htc _ _.
  apply lookup_singleton_Some in Htc as [<- _]. reflexivity.
Defined.

(** ** config.go: the legacy configuration *)

Lemma ToDefaultCollectorConfig_Targets_eq (order : list (string * Tags)) (port : Z) :
  ToDefaultCollectorConfig_Targets order port
  = match order with
    | [] => ∅
    | _ => {["default"%string :=
               (fun kv : string * Tags => TargetConfig.mk kv.1 port kv.2) <$> order]}
    end.
Proof.
  unfold ToDefaultCollectorConfig_Targets.
  assert (Hgen : forall (order : list (string * Tags)) (acc : TargetSet),
            foldl (fun (targets : TargetsConfig) (kv : string * Tags) =>
                     <["default"%string :=
                         targets !!! "default"%string
                         ++ [TargetConfig.mk kv.1 port kv.2]]> targets)
                  {["default"%string := acc]} order
            = {["default"%string :=
                  acc ++ ((fun kv : string * Tags => TargetConfig.mk kv.1 port kv.2)
                            <$> order)]}).
  { clear order. induction order as [| kv rest IH]; intros acc; cbn [foldl fmap list_fmap].
    - rewrite app_nil_r. reflexivity.
    - rewrite lookup_total_singleton, insert_singleton_eq, IH, <- app_assoc.
      reflexivity. }
  destruct order as [| kv rest]; [reflexivity |].
  cbn [foldl]. rewrite lookup_total_empty, insert_empty. cbn [app].
  rewrite Hgen. reflexivity.
Qed.

(** X19.  The tag set of a converted legacy configuration is the legacy map
    itself, whatever the orders of the range loops: nothing is lost or
    changed on the way.  All its targets are in the set named "default",
    one per legacy entry and all on the given port; an empty legacy map
    gives a configuration with no "default" set. *)
Theorem legacy_TagSet_round_trip (legacy : TagSet) (port : Z)
    (order : list (string * Tags)) (order' : list (string * TargetSet)) :
  range_order legacy order ->
  range_order (ToDefaultCollectorConfig_Targets order port) order' ->
  TargetsConfig_TagSet order' = legacy /\
  (legacy = ∅ -> ToDefaultCollectorConfig_Targets order port = ∅) /\
  (legacy <> ∅ ->
   exists set, ToDefaultCollectorConfig_Targets order port
               = {["default"%string := set]} /\
     length set = size legacy /\
     Forall (fun t => TargetConfig.Port t = port) set).
Proof.
  unfold range_order. intros Hord Hord'.
  rewrite ToDefaultCollectorConfig_Targets_eq in *.
  destruct order as [| kv rest].
  - symmetry in Hord. apply Permutation_nil_r, map_to_list_empty_iff in Hord.
    subst legacy. rewrite map_to_list_empty in Hord'.
    apply Permutation_nil_r in Hord'. subst order'.
    split; [reflexivity |]. split; [reflexivity | congruence].
  - cbv iota in Hord' |- *. remember (kv :: rest) as order eqn:Eorder.
    rewrite map_to_list_singleton in Hord'. apply Permutation_singleton_r in Hord'.
    subst order'. split; [| split].
    + unfold TargetsConfig_TagSet, TargetsConfig_IntoTagSet. cbn [foldl snd].
      unfold TargetSet_IntoTagSet. rewrite foldl_fmap.
      cbn [TargetConfig.IP TargetConfig.Tags].
      change (ts (MergeUpdateTagSet {| ts := ∅ |} order) = legacy).
      rewrite (MergeUpdateTagSet_union _ legacy order Hord). cbn.
      apply (right_id ∅ (∪)).
    + intros ->. rewrite map_to_list_empty in Hord.
      apply Permutation_nil_r in Hord. congruence.
    + intros _. eexists. split; [reflexivity |]. split.
      * rewrite length_fmap, Hord. apply length_map_to_list.
      * apply Forall_fmap, Forall_forall. intros x _. reflexivity.
Qed.

Lemma legacy_TagSet_round_trip_witness :
  let legacy : TagSet := {["10.0.0.1"%string := {["dst_cluster"%string := "a"%string]}]} in
  let order := map_to_list legacy in
  let order' := map_to_list (ToDefaultCollectorConfig_Targets order 8100) in
  TargetsConfig_TagSet order' = legacy.
Proof.
  intros legacy order order'.
  apply (legacy_TagSet_round_trip legacy 8100 order order').
  - unfold range_order. reflexivity.
  - unfold range_order. reflexivity.
Defined.

(** ** config.go: resolving targets *)

Lemma ListResolvedTargets_loop_spec {A : Type} (resolve : string -> A + string)
    (ts : TargetSet) (addrs : list A) :
  exists new,
    (ListResolvedTargets_loop resolve ts addrs).1 = addrs ++ new /\
    match (ListResolvedTargets_loop resolve ts addrs).2 with
    | None => Forall2 (fun t a => resolve (AddrString t) = inl a) ts new
    | Some err =>
        exists pre t post, ts = pre ++ t :: post /\
          Forall2 (fun t a => resolve (AddrString t) = inl a) pre new /\
          resolve (AddrString t) = inr err
    end.
Proof.
  revert addrs. induction ts as [| t rest IH]; intros addrs; cbn [ListResolvedTargets_loop].
  - exists []. cbn. rewrite app_nil_r. split; [reflexivity | constructor].
  - destruct (resolve (AddrString t)) as [a | err] eqn:E.
    + destruct (IH (addrs ++ [a])) as (new & Hnew & Hres).
      exists (a :: new). rewrite Hnew, <- app_assoc. split; [reflexivity |].
      destruct (ListResolvedTargets_loop resolve rest (addrs ++ [a])).2 as [err |].
      * destruct Hres as (pre & t' & post & -> & Hpre & Herr).
        exists (t :: pre), t', post. repeat split; [constructor; assumption | exact Herr].
      * constructor; assumption.
    + exists []. cbn. rewrite app_nil_r. split; [reflexivity |].
      exists [], t, rest. repeat split; [constructor | exact E].
Qed.

(** X20.  [ListResolvedTargets] resolves the targets in order.  Without an
    error it returns one address per target, each the resolution of its
    "IP:port" string; on an error it returns the error of the first target
    that fails, together with the addresses of the targets before it and
    nothing of those after. *)
Theorem ListResolvedTargets_spec {A : Type} (resolve : string -> A + string)
    (ts : TargetSet) :
  match (ListResolvedTargets resolve ts).2 with
  | None =>
      Forall2 (fun t a => resolve (AddrString t) = inl a) ts
        (ListResolvedTargets resolve ts).1
  | Some err =>
      exists pre t post, ts = pre ++ t :: post /\
        Forall2 (fun t a => resolve (AddrString t) = inl a) pre
          (ListResolvedTargets resolve ts).1 /\
        resolve (AddrString t) = inr err
  end.
Proof.
  unfold ListResolvedTargets.
  destruct (ListResolvedTargets_loop_spec resolve ts []) as (new & Hnew & Hres).
  cbn [app] in Hnew. rewrite Hnew. exact Hres.
Qed.

(** ** influx.go: data points *)

Lemma UpdateTags_union (t : Tags) (order : list (string * string)) (dp : DataPoint.t) :
  range_order t order ->
  DataPoint.Tags (UpdateTags order dp) = t ∪ DataPoint.Tags dp.
Proof.
  unfold range_order. intros Hperm. apply map_eq. intros k. cbn.
  rewrite foldl_insert_lookup.
  - rewrite (list_to_map_proper (M := gmap string) order (map_to_list t));
      [| rewrite Hperm; apply NoDup_fst_map_to_list | exact Hperm].
    rewrite list_to_map_to_list, lookup_union.
    destruct (t !! k), (DataPoint.Tags dp !! k); reflexivity.
  - rewrite Hperm. apply NoDup_fst_map_to_list.
Qed.

Lemma NewDataPoint_Some (IPString : list byte -> string) (s : Summary.t)
    (pd : PathDist) (t : Tags) (order : list (string * string)) :
  Summary.Pd s = Some pd -> range_order t order ->
  exists dp, NewDataPoint IPString s order = Some dp /\
    DataPoint.Tags dp = t ∪ path_tags IPString pd /\
    DataPoint.Measurement dp = "raw_stats"%string /\
    DataPoint.Fields dp
    = <["sent"%string := F64.of_Z (Summary.Sent s)]>
        (<["lost"%string := F64.of_Z (Summary.Lost s)]>
           (<["loss"%string := Summary.Loss s]>
              (<["rtt"%string := Summary.RTTAvg s]> ∅))).
Proof.
  intros Hpd Hord. unfold NewDataPoint, FromSummary, FromPD. rewrite Hpd.
  eexists. split; [reflexivity |]. split; [| split; reflexivity].
  rewrite (UpdateTags_union t order _ Hord). cbn.
  unfold path_tags. rewrite !insert_empty.
  reflexivity.
Qed.

(** X21.  A data point carries the tags of the destination together with
    [src_ip] and [dst_ip], and a destination tag named [src_ip] or [dst_ip]
    replaces the address; its measurement is "raw_stats" and its fields are
    exactly [rtt] (the average), [loss], [lost] and [sent].  A summary
    without a path makes [NewDataPoint] panic. *)
Theorem NewDataPoint_tags (IPString : list byte -> string) (s : Summary.t)
    (t : Tags) (order : list (string * string)) :
  range_order t order ->
  match Summary.Pd s with
  | None => NewDataPoint IPString s order = None
  | Some pd =>
      exists dp, NewDataPoint IPString s order = Some dp /\
        (forall k, DataPoint.Tags dp !! k
                   = match t !! k with
                     | Some v => Some v
                     | None => path_tags IPString pd !! k
                     end) /\
        DataPoint.Measurement dp = "raw_stats"%string /\
        dom (DataPoint.Fields dp)
        = ({["rtt"; "loss"; "lost"; "sent"]} : gset string)%string /\
        DataPoint.Fields dp !! "rtt"%string = Some (Summary.RTTAvg s) /\
        DataPoint.Fields dp !! "loss"%string = Some (Summary.Loss s) /\
        DataPoint.Fields dp !! "lost"%string = Some (F64.of_Z (Summary.Lost s)) /\
        DataPoint.Fields dp !! "sent"%string = Some (F64.of_Z (Summary.Sent s))
  end.
Proof.
  intros Hord. destruct (Summary.Pd s) as [pd |] eqn:Hpd.
  - destruct (NewDataPoint_Some IPString s pd t order Hpd Hord)
      as (dp & Hdp & Htags & Hm & Hf).
    exists dp. split; [exact Hdp |]. split; [| split; [exact Hm |]].
    + intros k. rewrite Htags, lookup_union.
      destruct (t !! k), (path_tags IPString pd !! k); reflexivity.
    + rewrite Hf. split; [| split; [| split; [| split]]].
      * rewrite !dom_insert_L, dom_empty_L. set_solver.
      * reflexivity.
      * reflexivity.
      * reflexivity.
      * reflexivity.
  - unfold NewDataPoint, FromSummary, FromPD. rewrite Hpd. reflexivity.
Qed.

Lemma NewDataPoint_tags_witness :
  let pd := Build_PathDist ["010"; "000"; "000"; "001"]%byte 0
              ["010"; "000"; "000"; "002"]%byte 8100 "udp"%string in
  let s := Summary.new (Some pd) in
  let t : Tags := {["dst_cluster"%string := "a"%string]} in
  exists dp, NewDataPoint (fun _ => "ip"%string) s (map_to_list t) = Some dp /\
    DataPoint.Tags dp !! "dst_cluster"%string = Some "a"%string /\
    DataPoint.Tags dp !! "dst_ip"%string = Some "ip"%string.
Proof.
  intros pd s t.
  assert (Hord : range_order t (map_to_list t)) by (unfold range_order; reflexivity).
  pose proof (NewDataPoint_tags (fun _ => "ip"%string) s t (map_to_list t) Hord) as H.
  cbn [s Summary.new Summary.Pd] in H.
  destruct H as (dp & Hdp & Htags & _).
  exists dp. split; [exact Hdp |]. split.
  - rewrite Htags. reflexivity.
  - rewrite Htags. reflexivity.
Defined.

Lemma NewFromSummaries_loop_spec (IPString : list byte -> string) (t : TagSet)
    (summaries : list (Summary.t * list (string * string)))
    (dps : list DataPoint.t) :
  Forall (fun so => exists pd, Summary.Pd so.1 = Some pd /\
            range_order (t !!! IPString (DstIP pd)) so.2) summaries ->
  exists new,
    NewFromSummaries_loop IPString summaries dps = Some (dps ++ new) /\
    Forall2 (fun so dp => exists pd, Summary.Pd so.1 = Some pd /\
               NewDataPoint IPString so.1 so.2 = Some dp /\
               DataPoint.Tags dp
               = (t !!! IPString (DstIP pd)) ∪ path_tags IPString pd)
      summaries new.
Proof.
  intros Hall. revert dps.
  induction Hall as [| [s order] rest (pd & Hpd & Hord) _ IH]; intros dps;
    cbn [NewFromSummaries_loop].
  - exists []. rewrite app_nil_r. split; [reflexivity | constructor].
  - cbn [fst snd] in Hpd, Hord. rewrite Hpd.
    destruct (NewDataPoint_Some IPString s pd _ order Hpd Hord)
      as (dp & Hdp & Htags & _).
    rewrite Hdp. destruct (IH (dps ++ [dp])) as (new & Hnew & Hf).
    exists (dp :: new). rewrite Hnew, <- app_assoc. split; [reflexivity |].
    constructor; [| exact Hf].
    exists pd. cbn [fst snd]. repeat split; assumption.
Qed.

(** X22.  [NewFromSummaries] makes one data point per summary, in order,
    when every summary has a path, and panics when one has none; each data
    point has the tags the tag set holds for its destination address, and a
    destination that the tag set does not know gets [src_ip] and [dst_ip]
    only. *)
Theorem NewFromSummaries_spec (IPString : list byte -> string) (t : TagSet)
    (summaries : list (Summary.t * list (string * string))) :
  Forall (fun so => forall pd, Summary.Pd so.1 = Some pd ->
            range_order (t !!! IPString (DstIP pd)) so.2) summaries ->
  (Forall (fun so => Summary.Pd so.1 <> None) summaries ->
   exists dps,
     NewFromSummaries IPString summaries = Some dps /\
     Forall2 (fun so dp => exists pd, Summary.Pd so.1 = Some pd /\
                DataPoint.Tags dp
                = (t !!! IPString (DstIP pd)) ∪ path_tags IPString pd /\
                (t !! IPString (DstIP pd) = None ->
                 DataPoint.Tags dp = path_tags IPString pd))
       summaries dps) /\
  (Exists (fun so => Summary.Pd so.1 = None) summaries ->
   NewFromSummaries IPString summaries = None).
Proof.
  intros Hord. split.
  - intros Hpd.
    assert (Hall : Forall (fun so : Summary.t * list (string * string) =>
                     exists pd, Summary.Pd so.1 = Some pd /\
                       range_order (t !!! IPString (DstIP pd)) so.2) summaries).
    { apply Forall_forall. intros so Hin.
      rewrite Forall_forall in Hord, Hpd.
      destruct (Summary.Pd so.1) as [pd |] eqn:E; [| exfalso; exact (Hpd so Hin E)].
      exists pd. split; [reflexivity | exact (Hord so Hin pd E)]. }
    destruct (NewFromSummaries_loop_spec IPString t summaries [] Hall)
      as (dps & Hrun & Hf).
    exists dps. split; [exact Hrun |].
    eapply Forall2_impl; [exact Hf |].
    intros so dp (pd & Hp & _ & Htags). exists pd.
    split; [exact Hp |]. split; [exact Htags |].
    intros Hnone. rewrite Htags, lookup_total_alt, Hnone. cbn.
    apply (left_id ∅ (∪)).
  - unfold NewFromSummaries. generalize (@nil DataPoint.t).
    induction summaries as [| [s order] rest IH]; intros dps Hex;
      [inversion Hex |].
    cbn [NewFromSummaries_loop].
    destruct (Summary.Pd s) as [pd |] eqn:E; [| reflexivity].
    apply Exists_cons in Hex as [Hex | Hex]; [cbn in Hex; congruence |].
    destruct (NewDataPoint IPString s order); [| reflexivity].
    apply IH; [| exact Hex].
    apply Forall_cons in Hord as [_ Hord]. exact Hord.
Qed.

Lemma NewFromSummaries_spec_witness :
  let pd := Build_PathDist ["010"; "000"; "000"; "001"]%byte 0
              ["010"; "000"; "000"; "002"]%byte 8100 "udp"%string in
  let s := Summary.new (Some pd) in
  exists dps, NewFromSummaries (fun _ => "ip"%string) [(s, [])] = Some dps /\
    length dps = 1%nat.
Proof.
  intros pd s.
  assert (Hord : Forall (fun so : Summary.t * list (string * string) =>
                   forall pd, Summary.Pd so.1 = Some pd ->
                     range_order ((∅ : TagSet) !!! (fun _ : list byte => "ip"%string) (DstIP pd))
                       so.2) [(s, [])]).
  { repeat constructor. }
  destruct (NewFromSummaries_spec (fun _ => "ip"%string) ∅ [(s, [])] Hord) as [Hok _].
  destruct Hok as (dps & Hdps & Hf); [repeat constructor; discriminate |].
  exists dps. split; [exact Hdps |].
  symmetry. exact (Forall2_length _ _ _ Hf).
Defined.

(** ** From stored Results to data points *)

Lemma store_keeps_Pd (IPString : list byte -> string) (arrived : list Result.t)
    (s s' : Summarizer.t) :
  Forall (fun r => Result.Pd r <> None) arrived ->
  map_Forall (fun _ l => Forall (fun r => Result.Pd r <> None) l)
    (Summarizer.results s) ->
  store IPString arrived s = Some s' ->
  map_Forall (fun _ l => Forall (fun r => Result.Pd r <> None) l)
    (Summarizer.results s').
Proof.
  intros Hpd. revert s.
  induction Hpd as [| r rest Hr _ IH]; intros s Hinv; cbn [store].
  - intros [= <-]. exact Hinv.
  - destruct (addResult IPString r s) as [s1 |] eqn:E; [| discriminate].
    apply IH. unfold addResult in E.
    destruct (Result.Pd r) as [pd |] eqn:Epd; [| discriminate].
    injection E as <-. cbn [Summarizer.results].
    apply map_Forall_insert_2; [| exact Hinv].
    apply Forall_app. split.
    + rewrite lookup_total_alt.
      destruct (Summarizer.results s !! result_key IPString pd) as [l |] eqn:El; cbn.
      * exact (Hinv _ _ El).
      * constructor.
    + repeat constructor. congruence.
Qed.

(** X23.  Results that have a path never make the chain from [store] over
    [summarize] to [NewFromSummaries] panic, whatever the orders of the
    range loops: the API gets exactly one data point per pair of source and
    destination address seen. *)
Theorem stored_results_to_data_points (IPString : list byte -> string)
    (t : TagSet) (arrived : list Result.t) :
  Forall (fun r => Result.Pd r <> None) arrived ->
  exists s1,
    store IPString arrived NewSummarizer = Some s1 /\
    forall order, range_order (Summarizer.results s1) order ->
      exists s2,
        summarize order s1 = Some s2 /\
        forall orders,
          Forall2 (fun s o => forall pd, Summary.Pd s = Some pd ->
                     range_order (t !!! IPString (DstIP pd)) o)
            (Summarizer.Cache s2) orders ->
          exists dps,
            NewFromSummaries IPString (zip (Summarizer.Cache s2) orders) = Some dps /\
            length dps = size (Summarizer.results s1).
Proof.
  intros Hpd.
  destruct (store_buckets IPString arrived NewSummarizer Hpd)
    as (s1 & Hs1 & Hne & _ & _); [apply map_Forall_empty |].
  pose proof (store_keeps_Pd IPString arrived NewSummarizer s1 Hpd
                (map_Forall_empty _) Hs1) as Hinv.
  exists s1. split; [exact Hs1 |].
  unfold range_order. intros order Hord.
  assert (Hne' : Forall (fun kv : string * list Result.t => kv.2 <> []) order).
  { rewrite Hord. apply Forall_forall. intros [k l] Hin.
    apply elem_of_map_to_list in Hin. exact (Hne k l Hin). }
  destruct (summarize_buckets order Hne') as (cache & Hm & Hf & _).
  exists (Summarizer.mk ∅ cache). unfold summarize. rewrite Hm.
  split; [reflexivity |]. cbn [Summarizer.Cache].
  intros orders Horders.
  assert (Hcache : Forall (fun s => Summary.Pd s <> None) cache).
  { apply Forall_forall. intros s Hs.
    apply list_elem_of_lookup in Hs as [i Hi].
    destruct (Forall2_lookup_r _ _ _ _ _ Hf Hi) as ([k l] & Hk & Hsum).
    cbn [snd] in Hsum.
    destruct (summarizeSet_head l s Hsum) as (_ & _ & ->).
    assert (Hl : Forall (fun r => Result.Pd r <> None) l).
    { apply (Hinv k). apply elem_of_map_to_list. rewrite <- Hord.
      apply list_elem_of_lookup. exists i. exact Hk. }
    destruct l as [| r0 l0]; [discriminate Hsum |].
    cbn. apply Forall_cons in Hl as [Hr0 _]. exact Hr0. }
  assert (Hlen : length orders = length cache)
    by (symmetry; exact (Forall2_length _ _ _ Horders)).
  destruct (NewFromSummaries_loop_spec IPString t (zip cache orders) [])
    as (dps & Hrun & Hdps).
  { apply Forall_forall. intros so Hin.
    apply list_elem_of_lookup in Hin as [i Hi].
    apply lookup_zip_with_Some in Hi as (s' & o' & -> & Hs & Ho).
    cbn [fst snd].
    assert (Hps : Summary.Pd s' <> None).
    { rewrite Forall_forall in Hcache. apply Hcache.
      apply list_elem_of_lookup. exists i. exact Hs. }
    destruct (Summary.Pd s') as [pd |] eqn:E; [| contradiction].
    exists pd. split; [reflexivity |].
    exact (Forall2_lookup_lr _ _ _ _ _ _ Horders Hs Ho pd E). }
  exists dps. split; [exact Hrun |].
  rewrite <- (Forall2_length _ _ _ Hdps), length_zip_with_l_eq by (symmetry; exact Hlen).
  rewrite <- (Forall2_length _ _ _ Hf), Hord. apply length_map_to_list.
Qed.

Lemma stored_results_to_data_points_witness :
  let rs := [Result.mk (Some (Build_PathDist [] 1 [] 2 "udp"%string)) 1000000 0 false;
             Result.mk (Some (Build_PathDist [] 3 [] 4 "udp"%string)) 0 0 true] in
  Forall (fun r => Result.Pd r <> None) rs /\
  exists s1 s2 dps,
    store (fun _ => "ip"%string) rs NewSummarizer = Some s1 /\
    summarize (map_to_list (Summarizer.results s1)) s1 = Some s2 /\
    NewFromSummaries (fun _ => "ip"%string)
      (zip (Summarizer.Cache s2) ((fun _ => []) <$> Summarizer.Cache s2)) = Some dps /\
    length dps = size (Summarizer.results s1).
Proof.
  intros rs.
  assert (Hpd : Forall (fun r => Result.Pd r <> None) rs)
    by (repeat constructor; discriminate).
  split; [exact Hpd |].
  destruct (stored_results_to_data_points (fun _ => "ip"%string) ∅ rs Hpd)
    as (s1 & Hs1 & H).
  destruct (H (map_to_list (Summarizer.results s1))) as (s2 & Hs2 & H2).
  { unfold range_order. reflexivity. }
  destruct (H2 ((fun _ => []) <$> Summarizer.Cache s2)) as (dps & Hdps & Hlen).
  { apply Forall2_fmap_r, Forall_Forall2_diag, Forall_forall.
    intros s _ pd _. unfold range_order.
    rewrite lookup_total_empty. cbn. rewrite map_to_list_empty. reflexivity. }
  exists s1, s2, dps. repeat split; assumption.
Defined.

(** ** reflector.go: the echo *)

Lemma Reflect_loop_echoes (Unmarshal : list byte -> list byte + string)
    (arrivals : list (list byte * UDPAddr.t)) (tos : byte) (conn : Conn.t) :
  Conn.IP_TOS conn = tos ->
  Forall (fun a => Unmarshal (Receive a.1) <> inl []) arrivals ->
  exists conn',
    Reflect_loop Unmarshal arrivals tos conn = Some conn' /\
    Conn.written conn' = Conn.written conn ++ omap (echo_of Unmarshal) arrivals.
Proof.
  intros Htos Hall. revert tos conn Htos.
  induction Hall as [| [datagram addr] rest Hne _ IH]; intros tos conn Htos;
    cbn [Reflect_loop omap list_omap].
  - exists conn. rewrite app_nil_r. split; reflexivity.
  - unfold echo_of at 1. cbn [fst snd] in Hne |- *.
    destruct (Unmarshal (Receive datagram)) as [[| tos0 tl] | err].
    + congruence.
    + destruct (Byte.eqb tos tos0) eqn:Hd; cbn [negb].
      * apply Byte.byte_dec_bl in Hd. subst tos0.
        destruct (IH tos (Reflector_Send (Receive datagram) addr conn))
          as (conn' & Hrun & Hw); [exact Htos |].
        exists conn'. split; [exact Hrun |].
        rewrite Hw. cbn. rewrite Htos, <- app_assoc. reflexivity.
      * destruct (IH tos0 (Reflector_Send (Receive datagram) addr (SetTos tos0 conn)))
          as (conn' & Hrun & Hw); [reflexivity |].
        exists conn'. split; [exact Hrun |].
        rewrite Hw. cbn. rewrite <- app_assoc. reflexivity.
    + apply IH. exact Htos.
Qed.

(** X24.  On a socket whose ToS is 0 when it starts, the reflector writes
    back every datagram that parses as a probe: the bytes it received (at
    most 4096 of them), unchanged, to the sender, in arrival order, with the
    socket's ToS equal to the ToS of that probe when it is written.  What
    does not parse is dropped, and nothing else is ever written. *)
Theorem Reflect_echoes (Unmarshal : list byte -> list byte + string)
    (arrivals : list (list byte * UDPAddr.t)) (conn : Conn.t) :
  Conn.IP_TOS conn = "000"%byte ->
  Forall (fun a => Unmarshal (Receive a.1) <> inl []) arrivals ->
  exists conn',
    Reflect Unmarshal arrivals conn = Some conn' /\
    Conn.written conn' = Conn.written conn ++ omap (echo_of Unmarshal) arrivals /\
    (forall datagram addr tos0 tl,
       (datagram, addr) ∈ arrivals -> (length datagram <= 4096)%nat ->
       Unmarshal datagram = inl (tos0 :: tl) ->
       (datagram, addr, tos0) ∈ Conn.written conn').
Proof.
  intros Htos Hall.
  destruct (Reflect_loop_echoes Unmarshal arrivals "000"%byte conn Htos Hall)
    as (conn' & Hrun & Hw).
  exists conn'. split; [exact Hrun |]. split; [exact Hw |].
  intros datagram addr tos0 tl Hin Hlen Hun.
  rewrite Hw. apply elem_of_app. right.
  apply list_elem_of_omap. exists (datagram, addr). split; [exact Hin |].
  unfold echo_of, Receive. cbn [fst snd].
  rewrite take_ge by exact Hlen. rewrite Hun. reflexivity.
Qed.

Lemma Reflect_echoes_witness :
  let Unmarshal := fun data : list byte =>
    match data with
    | [] => inr "short"%string
    | b :: _ => inl [b]
    end in
  let addr := UDPAddr.mk ["010"; "000"; "000"; "001"]%byte 4000 ""%string in
  let conn := Conn.mk "000"%byte [] in
  exists conn',
    Reflect Unmarshal [(["040"; "001"]%byte, addr); ([], addr)] conn = Some conn' /\
    Conn.written conn' = [(["040"; "001"]%byte, addr, "040"%byte)].
Proof.
  intros Unmarshal addr conn.
  assert (Hall : Forall (fun a : list byte * UDPAddr.t =>
                           Unmarshal (Receive a.1) <> inl [])
                   [(["040"; "001"]%byte, addr); ([], addr)]).
  { repeat constructor; cbn; discriminate. }
  destruct (Reflect_echoes Unmarshal _ conn eq_refl Hall) as (conn' & Hrun & Hw & _).
  exists conn'. split; [exact Hrun | exact Hw].
Defined.

(** X25.  A datagram that parses as a probe with no [Tos] byte stops the
    reflector: indexing [pbProbe.Tos[0]] panics. *)
Theorem Reflect_empty_Tos_panics (Unmarshal : list byte -> list byte + string)
    (arrivals : list (list byte * UDPAddr.t)) (conn : Conn.t) :
  Exists (fun a => Unmarshal (Receive a.1) = inl []) arrivals ->
  Reflect Unmarshal arrivals conn = None.
Proof.
  unfold Reflect. generalize "000"%byte. intros tos Hex. revert tos conn.
  induction Hex as [[datagram addr] rest Hbad | [datagram addr] rest _ IH];
    intros tos conn; cbn [Reflect_loop].
  - cbn [fst] in Hbad. rewrite Hbad. reflexivity.
  - destruct (Unmarshal (Receive datagram)) as [[| tos0 tl] | err].
    + reflexivity.
    + destruct (negb (Byte.eqb tos tos0)); apply IH.
    + apply IH.
Qed.

Lemma Reflect_empty_Tos_panics_witness :
  let Unmarshal := fun data : list byte => inl [] : list byte + string in
  let addr := UDPAddr.mk ["010"; "000"; "000"; "001"]%byte 4000 ""%string in
  Reflect Unmarshal [([], addr)] (Conn.mk "000"%byte []) = None.
Proof.
  intros Unmarshal addr.
  apply (Reflect_empty_Tos_panics Unmarshal).
  constructor. reflexivity.
Defined.

(** ** From probes to a summary *)

(** X26.  When the Results that [Process] makes of a non-empty run of probes
    are summarized as one bucket, [Sent] is the number of probes and [Lost]
    the number of those that timed out ([CRcvd = 0]) or whose clock readings
    are inverted ([CSent > CRcvd]); the summary is for the path of the first
    probe. *)
Theorem probes_to_summary (probes : list Probe.t) :
  probes <> [] ->
  exists s,
    summarizeSet ((fun p => (Process p).1) <$> probes) = Some s /\
    Summary.Sent s = Z.of_nat (length probes) /\
    Summary.Lost s
    = Z.of_nat (length (filter (fun p => Probe.CRcvd p = 0 \/
                                         Probe.CSent p > Probe.CRcvd p) probes)) /\
    Summary.Pd s = (probes !! 0%nat) ≫= Probe.Pd.
Proof.
  intros Hne.
  destruct (summarizeSet ((fun p => (Process p).1) <$> probes)) as [s |] eqn:E.
  - exists s. split; [reflexivity |].
    destruct (summarizeSet_head _ _ E) as (HS & HL & HP).
    rewrite HS, HL, HP, length_fmap. split; [reflexivity |]. split.
    + clear. induction probes as [| p rest IH]; [reflexivity |].
      rewrite fmap_cons, count_lost_cons, IH, filter_cons, Process_Lost.
      destruct (decide (Probe.CRcvd p = 0 \/ Probe.CSent p > Probe.CRcvd p))
        as [Hd | Hd].
      * assert (Hb : (Probe.CRcvd p =? 0) || (Probe.CSent p >? Probe.CRcvd p) = true).
        { apply orb_true_iff. destruct Hd as [Hd | Hd]; [left | right].
          - apply Z.eqb_eq, Hd.
          - apply Z.gtb_lt. lia. }
        rewrite Hb. cbn [length]. lia.
      * assert (Hb : (Probe.CRcvd p =? 0) || (Probe.CSent p >? Probe.CRcvd p) = false).
        { apply orb_false_iff. split.
          - apply Z.eqb_neq. tauto.
          - rewrite Z.gtb_ltb. apply Z.ltb_ge.
            destruct (Z_le_gt_dec (Probe.CSent p) (Probe.CRcvd p)); [lia | tauto]. }
        rewrite Hb. lia.
    + destruct probes as [| p rest]; [contradiction |].
      cbn. unfold Process, RTT.
      destruct (Probe.CRcvd p =? 0); [reflexivity |].
      destruct (Probe.CSent p >? Probe.CRcvd p); reflexivity.
  - destruct probes as [| p rest]; [contradiction | discriminate E].
Qed.

Lemma probes_to_summary_witness :
  let pd := Build_PathDist [] 1 [] 2 "udp"%string in
  let probes := [Probe.mk (Some pd) 100 250 "000"%byte;
                 Probe.mk (Some pd) 300 0 "000"%byte] in
  exists s, summarizeSet ((fun p => (Process p).1) <$> probes) = Some s /\
    Summary.Sent s = 2 /\ Summary.Lost s = 1.
Proof.
  intros pd probes.
  assert (Hne : probes <> []) by discriminate.
  destruct (probes_to_summary probes Hne) as (s & Hs & HS & HL & _).
  exists s. split; [exact Hs |]. split; [exact HS | exact HL].
Defined.
